(** * Load optimizer: a shallow embedding of [load_optimizer/optimizer.py]

    The development follows the Python source: [models.py] gives the two
    records, [optimizer.py] the profit model and [optimize_jobs].  Numbers
    are exact rationals ([Qc]); Python dictionaries keyed by the job id are
    [gmap string _]; a failing dictionary lookup or a value refused by the
    modelling library is an exception, carried by the [result] monad.

    [optimize_jobs] hands an integer program to the PuLP library and its CBC
    solver.  The solver is not part of the repository: it is a parameter of
    the embedding.  What is proved of [optimize_jobs] itself holds for every
    solver; a theorem that needs more assumes the contract [exact_solver]
    and says so.  [enumerate_solve] meets the contract; [tolerant_solve],
    which works within tolerances as a floating-point solver does, does
    not.  Where the rounding of doubles decides, the profit is followed on
    binary64 numbers ([compute_job_profit_binary64]). *)

From Stdlib Require Import PrimFloat.
From Stdlib Require Import QArith Qcanon.
From stdpp Require Import numbers base option list strings gmap.

Local Open Scope Qc_scope.

(** ** models.py *)

Record Job := {
  id : string;
  revenue : Qc;
  loaded_miles : Qc;
  deadhead_miles : Qc;
  hours : Qc;
  pallets : Qc;
  pickup_city : string;
  dropoff_city : string;
  date : string;
  notes : string
}.

Record ProblemConfig := {
  max_hours : Qc;
  max_pallets : Qc;
  fuel_cost_per_mile : Qc;
  driver_cost_per_hour : Qc
}.

(** ** Python exceptions *)

Inductive exn :=
  | KeyError (key : string)
  | TypeError (msg : string).

Inductive result (A : Type) :=
  | Ok (a : A)
  | Raise (e : exn).
Arguments Ok {A} a.
Arguments Raise {A} e.

#[global] Instance result_ret : MRet result := @Ok.
#[global] Instance result_bind : MBind result := λ A B f m,
  match m with Ok a => f a | Raise e => Raise e end.

(** [d[k]] on a Python dict. *)
Definition getitem {V} (d : gmap string V) (k : string) : result V :=
  match d !! k with
  | Some v => Ok v
  | None => Raise (KeyError k)
  end.

(** ** The part of PuLP that [optimize_jobs] uses

    Every variable made by [optimize_jobs] is binary
    ([lowBound=0, upBound=1, cat=LpBinary]) and is told apart by its name,
    so a variable is its name and an assignment gives each name a bit.  An
    affine expression is kept as its list of terms; PuLP adds up the
    coefficients of a repeated variable, which gives the same value. *)

Definition LpVariable := string.
Definition LpAffineExpression := list (LpVariable * Qc).

(** [lhs <= rhs] *)
Record LpConstraint := { lhs : LpAffineExpression; rhs : Qc }.

(** An [LpProblem] with sense [LpMaximize]. *)
Record LpProblem := {
  objective : LpAffineExpression;
  constraints : list LpConstraint
}.

Inductive LpStatusCode :=
  | LpStatusNotSolved
  | LpStatusOptimal
  | LpStatusInfeasible
  | LpStatusUnbounded
  | LpStatusUndefined.

(** The dictionary [pulp.LpStatus]. *)
Definition LpStatus (c : LpStatusCode) : string :=
  match c with
  | LpStatusNotSolved => "Not Solved"
  | LpStatusOptimal => "Optimal"
  | LpStatusInfeasible => "Infeasible"
  | LpStatusUnbounded => "Unbounded"
  | LpStatusUndefined => "Undefined"
  end.

(** Python's [sum] over a generator starts from the integer [0]: over no
    job at all it is that integer, otherwise an affine expression. *)
Inductive py_sum :=
  | SumZero
  | SumExpr (e : LpAffineExpression).

Definition sum_terms (terms : LpAffineExpression) : py_sum :=
  match terms with
  | [] => SumZero
  | _ => SumExpr terms
  end.

(** [s <= bound]: a plain Python boolean when [s] is the integer [0], an
    [LpConstraint] when [s] is an expression. *)
Definition sum_le (s : py_sum) (bound : Qc) : bool + LpConstraint :=
  match s with
  | SumZero => inl (bool_decide (0 ≤ bound))
  | SumExpr e => inr {| lhs := e; rhs := bound |}
  end.

(** [prob += c] for a constraint: [True] leaves the problem as it is,
    [False] is refused by PuLP with a [TypeError], a constraint is added. *)
Definition iadd_constraint (prob : LpProblem) (c : bool + LpConstraint)
    : result LpProblem :=
  match c with
  | inl true => Ok prob
  | inl false => Raise (TypeError "A False object cannot be passed as a constraint")
  | inr c => Ok {| objective := objective prob;
                   constraints := constraints prob ++ [c] |}
  end.

(** [prob += e] for the objective (the integer [0] becomes the empty
    expression). *)
Definition iadd_objective (prob : LpProblem) (s : py_sum) : LpProblem :=
  {| objective := match s with SumZero => [] | SumExpr e => e end;
     constraints := constraints prob |}.

(** [pulp.value(v)] once the solver has run: [None] for a variable the
    solver gave no value. *)
Definition value (vals : gmap string Qc) (v : LpVariable) : option Qc :=
  vals !! v.

(** ** optimizer.py *)

Definition compute_job_profit (job : Job) (cfg : ProblemConfig) : Qc :=
  let total_miles := loaded_miles job + deadhead_miles job in
  let fuel_cost := total_miles * fuel_cost_per_mile cfg in
  let labor_cost := hours job * driver_cost_per_hour cfg in
  let total_cost := fuel_cost + labor_cost in
  revenue job - total_cost.

(** Lines 39-42: [profits[job.id] = compute_job_profit(job, cfg)]. *)
Definition compute_profits (jobs : list Job) (cfg : ProblemConfig)
    : gmap string Qc :=
  foldl (λ profits job, <[id job := compute_job_profit job cfg]> profits)
        ∅ jobs.

(** Lines 46-50: the loop that keeps the jobs with
    [profits[job.id] >= min_profit_per_job]. *)
Fixpoint drop_low_profit (profits : gmap string Qc) (floor : Qc)
    (jobs : list Job) : result (list Job) :=
  match jobs with
  | [] => Ok []
  | job :: rest =>
      p ← getitem profits (id job);
      kept ← drop_low_profit profits floor rest;
      Ok (if bool_decide (floor ≤ p) then job :: kept else kept)
  end.

(** Lines 44-50. *)
Definition filter_jobs (profits : gmap string Qc) (jobs : list Job)
    (min_profit_per_job : option Qc) : result (list Job) :=
  match min_profit_per_job with
  | Some floor => drop_low_profit profits floor jobs
  | None => Ok jobs
  end.

(** Lines 56-58: [x[job.id] = LpVariable("x_" + job.id, ...)].  The
    dictionary is keyed by the id, so jobs that share an id share a
    variable.  PuLP replaces some characters of a name by an underscore,
    and refuses to solve a problem in which two variables then bear one
    name: such a run does not return, and is not among the runs followed
    here. *)
Definition make_variables (jobs : list Job) : gmap string LpVariable :=
  foldl (λ x job, <[id job := "x_" +:+ id job]> x) ∅ jobs.

(** The generators [coef(job) * x[job.id] for job in jobs]. *)
Definition linear_terms (coef : Job → result Qc) (x : gmap string LpVariable)
    (jobs : list Job) : result LpAffineExpression :=
  mapM (λ job, c ← coef job; v ← getitem x (id job); Ok (v, c)) jobs.

(** Lines 52-78. *)
Definition build_problem (profits : gmap string Qc)
    (x : gmap string LpVariable) (jobs : list Job) (cfg : ProblemConfig)
    (max_deadhead max_total_miles : option Qc) : result LpProblem :=
  let prob := {| objective := []; constraints := [] |} in
  obj ← linear_terms (λ job, getitem profits (id job)) x jobs;
  let prob := iadd_objective prob (sum_terms obj) in
  hrs ← linear_terms (λ job, Ok (hours job)) x jobs;
  prob ← iadd_constraint prob (sum_le (sum_terms hrs) (max_hours cfg));
  pls ← linear_terms (λ job, Ok (pallets job)) x jobs;
  prob ← iadd_constraint prob (sum_le (sum_terms pls) (max_pallets cfg));
  prob ← match max_deadhead with
          | Some bound =>
              dh ← linear_terms (λ job, Ok (deadhead_miles job)) x jobs;
              iadd_constraint prob (sum_le (sum_terms dh) bound)
          | None => Ok prob
          end;
  match max_total_miles with
  | Some bound =>
      tm ← linear_terms
             (λ job, Ok (loaded_miles job + deadhead_miles job)) x jobs;
      iadd_constraint prob (sum_le (sum_terms tm) bound)
  | None => Ok prob
  end.

(** [pulp.value(v) is not None and pulp.value(v) > 0.5] *)
Definition selected (vals : gmap string Qc) (v : LpVariable) : bool :=
  match value vals v with
  | Some q => bool_decide (Q2Qc (1 # 2) < q)
  | None => false
  end.

(** The four accumulators of the loop that reads the solution. *)
Record Totals := {
  acc_chosen : list Job;
  acc_profit : Qc;
  acc_hours : Qc;
  acc_pallets : Qc
}.

(** Lines 89-94. *)
Fixpoint extract_solution (profits : gmap string Qc)
    (x : gmap string LpVariable) (vals : gmap string Qc)
    (jobs : list Job) (acc : Totals) : result Totals :=
  match jobs with
  | [] => Ok acc
  | job :: rest =>
      v ← getitem x (id job);
      if selected vals v then
        p ← getitem profits (id job);
        extract_solution profits x vals rest
          {| acc_chosen := acc_chosen acc ++ [job];
             acc_profit := acc_profit acc + p;
             acc_hours := acc_hours acc + hours job;
             acc_pallets := acc_pallets acc + pallets job |}
      else extract_solution profits x vals rest acc
  end.

(** The dictionary returned by [optimize_jobs]. *)
Record Result := {
  status : string;
  total_profit : Qc;
  total_hours : Qc;
  total_pallets : Qc;
  chosen_jobs : list Job;
  all_profits : gmap string Qc
}.

Section Optimizer.

(** [prob.solve(pulp.PULP_CBC_CMD(msg=False))]: the status it stores in
    [prob.status] and the values it stores in the variables.  A call in
    which the solver itself fails with an exception is not modelled: every
    statement on a returned result is on a run whose solver returned. *)
Variable solve : LpProblem → LpStatusCode * gmap string Qc.

Definition optimize_jobs (jobs : list Job) (cfg : ProblemConfig)
    (max_deadhead max_total_miles min_profit_per_job : option Qc)
    : result Result :=
  let profits := compute_profits jobs cfg in
  jobs ← filter_jobs profits jobs min_profit_per_job;
  let x := make_variables jobs in
  prob ← build_problem profits x jobs cfg max_deadhead max_total_miles;
  let '(prob_status, vals) := solve prob in
  sol ← extract_solution profits x vals jobs
           {| acc_chosen := []; acc_profit := 0;
              acc_hours := 0; acc_pallets := 0 |};
  Ok {| status := LpStatus prob_status;
        total_profit := acc_profit sol;
        total_hours := acc_hours sol;
        total_pallets := acc_pallets sol;
        chosen_jobs := acc_chosen sol;
        all_profits := profits |}.

End Optimizer.

(** ** Binary programs: what a solution is *)

(** The value of an expression when each variable is [1] or [0]. *)
Definition expr_value (e : LpAffineExpression) (a : LpVariable → bool) : Qc :=
  foldr (λ t acc, (if a t.1 then t.2 else 0) + acc) 0 e.

Definition lp_feasible (p : LpProblem) (a : LpVariable → bool) : Prop :=
  Forall (λ c, expr_value (lhs c) a ≤ rhs c) (constraints p).

(** An exact solver for binary programs: it reports [Optimal] exactly when
    some assignment meets every constraint, and then the values it leaves in
    the variables, read at the threshold one half, are such an assignment
    of the largest objective value; otherwise it reports [Infeasible], and
    nothing is known of the values.  This is an idealisation: a solver that
    computes in floating point meets the constraints and the optimum only
    within its tolerances. *)
Record exact_solver (solve : LpProblem → LpStatusCode * gmap string Qc)
    : Prop := {
  solve_status : ∀ p,
    (solve p).1 = LpStatusOptimal ∨ (solve p).1 = LpStatusInfeasible;
  solve_complete : ∀ p a,
    lp_feasible p a → (solve p).1 = LpStatusOptimal;
  solve_feasible : ∀ p,
    (solve p).1 = LpStatusOptimal → lp_feasible p (selected (solve p).2);
  solve_maximal : ∀ p a,
    (solve p).1 = LpStatusOptimal → lp_feasible p a →
    expr_value (objective p) a
      ≤ expr_value (objective p) (selected (solve p).2)
}.

(** ** Selections of jobs and their bounds *)

Definition sum_over (f : Job → Qc) (sel : list Job) : Qc :=
  foldr (λ job acc, f job + acc) 0 sel.

Definition within (bound : option Qc) (s : Qc) : Prop :=
  match bound with
  | Some b => s ≤ b
  | None => True
  end.

(** The constraints of lines 63-78, read on a list of jobs. *)
Definition satisfies_bounds (cfg : ProblemConfig)
    (max_deadhead max_total_miles : option Qc) (sel : list Job) : Prop :=
  sum_over hours sel ≤ max_hours cfg
  ∧ sum_over pallets sel ≤ max_pallets cfg
  ∧ within max_deadhead (sum_over deadhead_miles sel)
  ∧ within max_total_miles
      (sum_over (λ job, loaded_miles job + deadhead_miles job) sel).

#[global] Instance within_dec bound s : Decision (within bound s).
Proof. destruct bound; simpl; apply _. Defined.

#[global] Instance satisfies_bounds_dec cfg md mt sel :
  Decision (satisfies_bounds cfg md mt sel).
Proof. unfold satisfies_bounds. apply _. Defined.

(** All sub-lists of a list, [2^n] of them. *)
Fixpoint powerlist {A} (l : list A) : list (list A) :=
  match l with
  | [] => [[]]
  | a :: l => ((a ::.) <$> powerlist l) ++ powerlist l
  end.

Definition max_of (l : list Qc) : option Qc :=
  foldr (λ q acc, match acc with
                  | Some m => Some (if bool_decide (m ≤ q) then q else m)
                  | None => Some q
                  end) None l.

(** The largest sum_over profit over the sub-lists of [jobs] that satisfy the
    bounds, by enumeration; [None] when no sub-list does. *)
Definition exhaustive_optimum (cfg : ProblemConfig)
    (max_deadhead max_total_miles : option Qc) (jobs : list Job)
    : option Qc :=
  max_of ((sum_over (λ job, compute_job_profit job cfg)) <$>
          filter (satisfies_bounds cfg max_deadhead max_total_miles)
                 (powerlist jobs)).

(** ** A solver by enumeration *)

Definition problem_vars (p : LpProblem) : list LpVariable :=
  remove_dups ((objective p).*1 ++ mjoin ((λ c, (lhs c).*1) <$> constraints p)).

Definition picks (c : list LpVariable) : LpVariable → bool :=
  λ v, bool_decide (v ∈ c).

#[global] Instance lp_feasible_dec p a : Decision (lp_feasible p a).
Proof. unfold lp_feasible. apply _. Defined.

(** The first choice of greatest objective value. *)
Fixpoint best_choice (obj : list LpVariable → Qc)
    (choices : list (list LpVariable)) : option (list LpVariable) :=
  match choices with
  | [] => None
  | c :: rest =>
      match best_choice obj rest with
      | Some d => Some (if bool_decide (obj d ≤ obj c) then c else d)
      | None => Some c
      end
  end.

Definition values_of (vars c : list LpVariable) : gmap string Qc :=
  foldr (λ v vals, <[v := if picks c v then 1 else 0]> vals) ∅ vars.

Definition enumerate_solve (p : LpProblem) : LpStatusCode * gmap string Qc :=
  let vars := problem_vars p in
  match best_choice (λ c, expr_value (objective p) (picks c))
          (filter (λ c, lp_feasible p (picks c)) (powerlist vars)) with
  | Some c => (LpStatusOptimal, values_of vars c)
  | None => (LpStatusInfeasible, ∅)
  end.

(** ** Sample data *)

Definition rat (n : Z) (d : positive) : Qc := Q2Qc (n # d).

(** [Job(id, revenue, loaded_miles, deadhead_miles, hours, pallets)] with
    the default empty descriptions. *)
Definition mk_job (i : string) (rev loaded deadhead hrs pal : Qc) : Job :=
  {| id := i; revenue := rev; loaded_miles := loaded;
     deadhead_miles := deadhead; hours := hrs; pallets := pal;
     pickup_city := ""; dropoff_city := ""; date := ""; notes := "" |}.

(** The five jobs and the settings of [demo.py]. *)
Definition demo_jobs : list Job :=
  [ mk_job "1" (rat 700 1) (rat 120 1) 0 (rat 3 1) (rat 2 1);
    mk_job "2" (rat 500 1) (rat 60 1) 0 (rat 2 1) (rat 1 1);
    mk_job "3" (rat 900 1) (rat 180 1) 0 (rat 9 2) (rat 3 1);
    mk_job "4" (rat 400 1) (rat 40 1) 0 (rat 3 2) (rat 1 1);
    mk_job "5" (rat 650 1) (rat 100 1) 0 (rat 3 1) (rat 2 1) ].

Definition demo_cfg : ProblemConfig :=
  {| max_hours := rat 11 1; max_pallets := rat 6 1;
     fuel_cost_per_mile := rat 7 10; driver_cost_per_hour := rat 25 1 |}.

(** A budget of minus one hour. *)
Definition negative_hours_cfg : ProblemConfig :=
  {| max_hours := rat (-1) 1; max_pallets := rat 6 1;
     fuel_cost_per_mile := rat 7 10; driver_cost_per_hour := rat 25 1 |}.

Definition one_job : list Job :=
  [ mk_job "1" (rat 700 1) (rat 120 1) 0 (rat 3 1) (rat 2 1) ].

(** Two jobs under one id; the second one loses money. *)
Definition duplicate_jobs : list Job :=
  [ mk_job "1" (rat 700 1) (rat 120 1) 0 (rat 3 1) (rat 2 1);
    mk_job "1" 0 (rat 100 1) 0 (rat 1 1) (rat 1 1) ].

(** A job of 3.000001 hours and a budget of 3 hours. *)
Definition heavy_job : list Job :=
  [ mk_job "1" (rat 700 1) (rat 120 1) 0 (rat 3000001 1000000) (rat 2 1) ].

Definition three_hours_cfg : ProblemConfig :=
  {| max_hours := rat 3 1; max_pallets := rat 6 1;
     fuel_cost_per_mile := rat 7 10; driver_cost_per_hour := rat 25 1 |}.

(** A job that earns a billionth. *)
Definition marginal_job : list Job :=
  [ mk_job "1" (rat 25000000001 1000000000) 0 0 (rat 1 1) (rat 1 1) ].

(** ** A solver that works within tolerances

    A solver that computes in floating point accepts a constraint that is
    missed by less than a tolerance, and keeps the solution it has unless
    another one is better by more than a tolerance.  [tolerant_solve tol]
    is the solver by enumeration with these two changes; it reports
    [Optimal] for whatever it returns. *)

Definition lp_feasible_within (tol : Qc) (p : LpProblem)
    (a : LpVariable → bool) : Prop :=
  Forall (λ c, expr_value (lhs c) a ≤ rhs c + tol) (constraints p).

#[global] Instance lp_feasible_within_dec tol p a :
  Decision (lp_feasible_within tol p a).
Proof. unfold lp_feasible_within. apply _. Defined.

Fixpoint best_within (tol : Qc) (obj : list LpVariable → Qc)
    (choices : list (list LpVariable)) : option (list LpVariable) :=
  match choices with
  | [] => None
  | c :: rest =>
      match best_within tol obj rest with
      | Some d => Some (if bool_decide (obj d + tol < obj c) then c else d)
      | None => Some c
      end
  end.

Definition tolerant_solve (tol : Qc) (p : LpProblem)
    : LpStatusCode * gmap string Qc :=
  let vars := problem_vars p in
  match best_within tol (λ c, expr_value (objective p) (picks c))
          (filter (λ c, lp_feasible_within tol p (picks c))
             (powerlist vars)) with
  | Some c => (LpStatusOptimal, values_of vars c)
  | None => (LpStatusInfeasible, ∅)
  end.

(** ** The profit on binary64 numbers

    The numbers of the Python program are doubles.  [compute_job_profit]
    once more, on the six numbers it reads and with the operations of
    binary64; and the expression
    [revenue - (loaded + deadhead) * fuel - hours * driver] as Python
    evaluates it, from left to right. *)

Definition compute_job_profit_binary64
    (revenue loaded_miles deadhead_miles hours
     fuel_cost_per_mile driver_cost_per_hour : float) : float :=
  let total_miles := (loaded_miles + deadhead_miles)%float in
  let fuel_cost := (total_miles * fuel_cost_per_mile)%float in
  let labor_cost := (hours * driver_cost_per_hour)%float in
  let total_cost := (fuel_cost + labor_cost)%float in
  (revenue - total_cost)%float.

Definition claimed_profit_binary64
    (revenue loaded_miles deadhead_miles hours
     fuel_cost_per_mile driver_cost_per_hour : float) : float :=
  (revenue - (loaded_miles + deadhead_miles) * fuel_cost_per_mile
   - hours * driver_cost_per_hour)%float.

(** The double nearest to 0.7. *)
Definition seven_tenths : float := 0x1.6666666666666p-1%float.

(** ** Candidates, variables and the problem of a run *)

(** The numeric fields that enter the constraints are not negative. *)
Definition nonnegative_fields (job : Job) : Prop :=
  0 ≤ hours job ∧ 0 ≤ pallets job
  ∧ 0 ≤ deadhead_miles job ∧ 0 ≤ loaded_miles job.

(** The variable of a job, and the entry of a job in a dictionary keyed by
    id ([0] stands for a missing entry, which never arises for the jobs the
    dictionary was built from). *)
Definition var_of (job : Job) : LpVariable := "x_" +:+ id job.

Definition entry (profits : gmap string Qc) (job : Job) : Qc :=
  default 0 (profits !! id job).

(** The jobs that pass the loop of lines 46-50. *)
Definition eligible (profits : gmap string Qc) (jobs : list Job)
    (min_profit_per_job : option Qc) : list Job :=
  match min_profit_per_job with
  | Some floor => filter (λ job, floor ≤ entry profits job) jobs
  | None => jobs
  end.

(** The jobs an assignment selects. *)
Definition selection (a : LpVariable → bool) (jobs : list Job) : list Job :=
  filter (λ job, a (var_of job)) jobs.

(** The terms [coef(job) * x[job.id]] of a sum over the jobs. *)
Definition terms_of (coef : Job → Qc) (jobs : list Job)
    : LpAffineExpression :=
  (λ job, (var_of job, coef job)) <$> jobs.

(** The problem built for a non-empty list of jobs. *)
Definition problem_of (profits : gmap string Qc) (jobs : list Job)
    (cfg : ProblemConfig) (max_deadhead max_total_miles : option Qc)
    : LpProblem :=
  {| objective := terms_of (entry profits) jobs;
     constraints :=
       [ {| lhs := terms_of hours jobs; rhs := max_hours cfg |};
         {| lhs := terms_of pallets jobs; rhs := max_pallets cfg |} ]
       ++ match max_deadhead with
          | Some bound =>
              [ {| lhs := terms_of deadhead_miles jobs; rhs := bound |} ]
          | None => []
          end
       ++ match max_total_miles with
          | Some bound =>
              [ {| lhs := terms_of
                            (λ job, loaded_miles job + deadhead_miles job)
                            jobs;
                   rhs := bound |} ]
          | None => []
          end |}.

(** The jobs handed to the solver by a run: the input list after the
    optional filter, which reads the dictionary computed from the whole
    input list. *)
Definition candidates (jobs : list Job) (cfg : ProblemConfig)
    (min_profit_per_job : option Qc) : list Job :=
  eligible (compute_profits jobs cfg) jobs min_profit_per_job.

(** No constraint of the run is the Python constant [False]: some job is
    left after the filter, or no job is left and every bound in force is at
    least [0].  This is exactly when [optimize_jobs] returns a result,
    given that the solver returns ([optimize_jobs_Ok_iff]). *)
Definition no_false_constraint (jobs : list Job) (cfg : ProblemConfig)
    (max_deadhead max_total_miles min_profit_per_job : option Qc) : Prop :=
  candidates jobs cfg min_profit_per_job ≠ []
  ∨ satisfies_bounds cfg max_deadhead max_total_miles [].

(** Some choice of variables gives a selection within the bounds. *)
Definition feasible_selection (jobs : list Job) (cfg : ProblemConfig)
    (max_deadhead max_total_miles : option Qc) : Prop :=
  ∃ a, satisfies_bounds cfg max_deadhead max_total_miles (selection a jobs).

(** ** optimize_from_csv.py: saving the plan

    [save_results_to_csv] is followed up to the rows it hands to
    [csv.writer], in order; the file itself stays outside. *)

(** The exceptions of the script: those above, and two more. *)
Inductive py_exn :=
  | Base (e : exn)
  | ValueError (text : string)
  | ZeroDivisionError.

Inductive outcome (A : Type) :=
  | Returned (a : A)
  | Raised (e : py_exn).
Arguments Returned {A} a.
Arguments Raised {A} e.

#[global] Instance outcome_ret : MRet outcome := @Returned.
#[global] Instance outcome_bind : MBind outcome := λ A B f m,
  match m with Returned a => f a | Raised e => Raised e end.

Definition lift {A} (r : result A) : outcome A :=
  match r with
  | Ok a => Returned a
  | Raise e => Raised (Base e)
  end.

(** [a / b] on numbers. *)
Definition truediv (a b : Qc) : outcome Qc :=
  if bool_decide (b = 0) then Raised ZeroDivisionError else Returned (a / b).

(** A cell handed to [csv.writer]: text or a number. *)
Inductive cell :=
  | Text (s : string)
  | Number (q : Qc).

Section Script.

(** [round(x, 2)]. *)
Variable round2 : Qc → Qc.

(** Lines 110-127: total miles of the chosen jobs, profit per hour and
    profit per mile. *)
Definition summary_metrics (result : Result) : outcome (Qc * Qc * Qc) :=
  let total_miles :=
    foldl (λ total_miles job,
             total_miles + (loaded_miles job + deadhead_miles job))
          0 (chosen_jobs result) in
  let total_profit := total_profit result in
  let total_hours := total_hours result in
  profit_per_hour ←
    (if bool_decide (0 < total_hours) then truediv total_profit total_hours
     else Returned 0);
  profit_per_mile ←
    (if bool_decide (0 < total_miles) then truediv total_profit total_miles
     else Returned 0);
  Returned (total_miles, profit_per_hour, profit_per_mile).

Definition header_row : list cell :=
  Text <$> [ "id"; "revenue"; "loaded_miles"; "deadhead_miles"; "hours";
             "pallets"; "pickup_city"; "dropoff_city"; "date"; "notes";
             "profit" ].

(** Lines 148-162: the row of one chosen job. *)
Definition job_row (result : Result) (job : Job) : outcome (list cell) :=
  profit ← lift (getitem (all_profits result) (id job));
  Returned [ Text (id job); Number (revenue job); Number (loaded_miles job);
             Number (deadhead_miles job); Number (hours job);
             Number (pallets job); Text (pickup_city job);
             Text (dropoff_city job); Text (date job); Text (notes job);
             Number (round2 profit) ].

Definition total_row (result : Result) : list cell :=
  [ Text "TOTAL"; Text ""; Text ""; Text ""; Number (total_hours result);
    Number (total_pallets result); Text ""; Text ""; Text ""; Text "";
    Number (round2 (total_profit result)) ].

Definition summary_row (metrics : Qc * Qc * Qc) : list cell :=
  let '(total_miles, profit_per_hour, profit_per_mile) := metrics in
  [ Text "SUMMARY"; Text ""; Text "total_miles"; Number (round2 total_miles);
    Text "profit_per_hour"; Number (round2 profit_per_hour);
    Text "profit_per_mile"; Number (round2 profit_per_mile) ].

(** Lines 101-195: the rows written, in order.  An exception in the loop
    over the chosen jobs leaves the rows before it in the file; here only
    the exception is kept. *)
Definition save_results_to_csv (result : Result)
    : outcome (list (list cell)) :=
  metrics ← summary_metrics result;
  rows ← mapM (job_row result) (chosen_jobs result);
  Returned ([header_row] ++ rows
            ++ [ []; total_row result; []; summary_row metrics ]).

End Script.

(** The cells of the row of a job whose profit is in the mapping. *)
Definition job_cells (round2 : Qc → Qc) (profits : gmap string Qc)
    (job : Job) : list cell :=
  [ Text (id job); Number (revenue job); Number (loaded_miles job);
    Number (deadhead_miles job); Number (hours job); Number (pallets job);
    Text (pickup_city job); Text (dropoff_city job); Text (date job);
    Text (notes job); Number (round2 (entry profits job)) ].

(** A bound is at least as tight as another one; no bound is loosest. *)
Definition tighter (bound1 bound2 : option Qc) : Prop :=
  match bound2 with
  | None => True
  | Some b2 => match bound1 with Some b1 => b1 ≤ b2 | None => False end
  end.

(** ** Dictionaries filled by a loop *)

Section FilledDict.
Context {A V : Type} (key : A → string) (val : A → V).

Local Abbreviation fill m l :=
  (foldl (λ (m : gmap string V) a, <[key a := val a]> m) m l).

Lemma fill_not_elem (m : gmap string V) l k :
  k ∉ key <$> l → fill m l !! k = m !! k.
Proof.
  revert m. induction l as [|a l IH]; intros m Hk; [done|].
  simpl in *. apply not_elem_of_cons in Hk as [Hne Hk].
  rewrite IH by done. by rewrite lookup_insert_ne.
Qed.

(** The last element with a given key decides the entry. *)
Lemma fill_last_wins (m : gmap string V) l1 a l2 :
  key a ∉ key <$> l2 → fill m (l1 ++ a :: l2) !! key a = Some (val a).
Proof.
  intros Hk. rewrite foldl_app. simpl.
  rewrite fill_not_elem by done. by rewrite lookup_insert_eq.
Qed.

Lemma fill_NoDup (m : gmap string V) l a :
  NoDup (key <$> l) → a ∈ l → fill m l !! key a = Some (val a).
Proof.
  intros Hnd (l1 & l2 & ->)%list_elem_of_split.
  apply fill_last_wins.
  rewrite fmap_app, fmap_cons in Hnd.
  apply NoDup_app in Hnd as (_ & _ & Hnd).
  by apply NoDup_cons in Hnd as [? _].
Qed.

Lemma last_with_key l k :
  k ∈ key <$> l → ∃ l1 b l2, l = l1 ++ b :: l2 ∧ key b = k ∧ k ∉ key <$> l2.
Proof.
  induction l as [|b l IH]; intros Hk; [by apply elem_of_nil in Hk|].
  destruct (decide (k ∈ key <$> l)) as [Hin|Hout].
  - destruct (IH Hin) as (l1 & c & l2 & -> & Hc & Hl2).
    by exists (b :: l1), c, l2.
  - rewrite fmap_cons in Hk. apply elem_of_cons in Hk as [->|Hk]; [|done].
    by exists [], b, l.
Qed.

Lemma fill_elem (m : gmap string V) l a : a ∈ l → is_Some (fill m l !! key a).
Proof.
  intros Ha.
  destruct (last_with_key l (key a)) as (l1 & b & l2 & -> & Hb & Hl2).
  { apply list_elem_of_fmap. eauto. }
  rewrite <- Hb in Hl2 |- *. rewrite fill_last_wins by done. eauto.
Qed.

(** When the value depends on the key alone, every element finds it. *)
Lemma fill_by_key (g : string → V) (m : gmap string V) l a :
  (∀ b, val b = g (key b)) → a ∈ l → fill m l !! key a = Some (g (key a)).
Proof.
  intros Hg Ha.
  destruct (last_with_key l (key a)) as (l1 & b & l2 & -> & Hb & Hl2).
  { apply list_elem_of_fmap. eauto. }
  rewrite <- Hb in Hl2 |- *. rewrite fill_last_wins by done.
  by rewrite Hg.
Qed.
End FilledDict.

(** ** The dictionaries of [optimize_jobs] *)

Lemma profits_elem jobs cfg job :
  job ∈ jobs → is_Some (compute_profits jobs cfg !! id job).
Proof. apply fill_elem. Qed.

Lemma profits_last_wins l1 job l2 cfg :
  id job ∉ id <$> l2 →
  compute_profits (l1 ++ job :: l2) cfg !! id job
    = Some (compute_job_profit job cfg).
Proof. apply (fill_last_wins id (λ job, compute_job_profit job cfg)). Qed.

Lemma profits_NoDup jobs cfg job :
  NoDup (id <$> jobs) → job ∈ jobs →
  compute_profits jobs cfg !! id job = Some (compute_job_profit job cfg).
Proof. apply (fill_NoDup id (λ job, compute_job_profit job cfg)). Qed.

Lemma entry_NoDup jobs cfg job :
  NoDup (id <$> jobs) → job ∈ jobs →
  entry (compute_profits jobs cfg) job = compute_job_profit job cfg.
Proof. intros ??. unfold entry. by rewrite profits_NoDup. Qed.

Lemma getitem_profits jobs cfg job :
  job ∈ jobs →
  getitem (compute_profits jobs cfg) (id job)
    = Ok (entry (compute_profits jobs cfg) job).
Proof.
  intros [p Hp]%(profits_elem _ cfg). unfold getitem, entry. by rewrite Hp.
Qed.

Lemma getitem_variables jobs job :
  job ∈ jobs → getitem (make_variables jobs) (id job) = Ok (var_of job).
Proof.
  intros Hin. unfold getitem, make_variables.
  by rewrite (fill_by_key id (λ job, "x_" +:+ id job) (λ k, "x_" +:+ k)).
Qed.

#[global] Instance var_of_id_inj : Inj (=) (=) (λ k : string, "x_" +:+ k).
Proof. intros k1 k2 Hk. by simplify_eq/=. Qed.

Lemma var_of_inj job1 job2 : var_of job1 = var_of job2 → id job1 = id job2.
Proof. apply (inj (λ k : string, "x_" +:+ k)). Qed.

(** ** The filter *)

Lemma drop_low_profit_eligible profits floor jobs :
  (∀ job, job ∈ jobs → is_Some (profits !! id job)) →
  drop_low_profit profits floor jobs = Ok (eligible profits jobs (Some floor)).
Proof.
  induction jobs as [|job jobs IH]; intros Hall; [done|].
  simpl. destruct (Hall job) as [p Hp]; [set_solver|].
  unfold getitem at 1. rewrite Hp. simpl.
  rewrite IH by (intros; apply Hall; set_solver). simpl.
  rewrite filter_cons.
  assert (entry profits job = p) as -> by (unfold entry; by rewrite Hp).
  rewrite decide_bool_decide. by destruct (bool_decide _).
Qed.

Lemma filter_jobs_eligible jobs cfg min_profit_per_job :
  filter_jobs (compute_profits jobs cfg) jobs min_profit_per_job
    = Ok (eligible (compute_profits jobs cfg) jobs min_profit_per_job).
Proof.
  destruct min_profit_per_job as [floor|]; [|done].
  apply drop_low_profit_eligible. intros job. apply profits_elem.
Qed.

Lemma eligible_sublist profits jobs min_profit_per_job :
  eligible profits jobs min_profit_per_job `sublist_of` jobs.
Proof.
  destruct min_profit_per_job; simpl; [apply sublist_filter|done].
Qed.

Lemma eligible_elem profits jobs min_profit_per_job job :
  job ∈ eligible profits jobs min_profit_per_job → job ∈ jobs.
Proof. intros ?. eapply elem_of_sublist; [done|apply eligible_sublist]. Qed.

(** ** The integer program *)

Lemma linear_terms_ok coef c x jobs :
  (∀ job, job ∈ jobs → coef job = Ok (c job)) →
  (∀ job, job ∈ jobs → getitem x (id job) = Ok (var_of job)) →
  linear_terms coef x jobs = Ok (terms_of c jobs).
Proof.
  unfold linear_terms. induction jobs as [|job jobs IH]; intros Hc Hx; [done|].
  simpl. rewrite Hc, Hx by set_solver. simpl.
  rewrite IH; [done|intros; apply Hc; set_solver|intros; apply Hx; set_solver].
Qed.

Lemma expr_value_terms coef jobs a :
  expr_value (terms_of coef jobs) a = sum_over coef (selection a jobs).
Proof.
  unfold selection. induction jobs as [|job jobs IH]; [done|].
  simpl. rewrite filter_cons, IH.
  destruct (a (var_of job)); simpl; [done|]. by rewrite Qcplus_0_l.
Qed.

Lemma problem_of_feasible profits jobs cfg md mt a :
  lp_feasible (problem_of profits jobs cfg md mt) a
  ↔ satisfies_bounds cfg md mt (selection a jobs).
Proof.
  unfold lp_feasible, satisfies_bounds, problem_of. simpl.
  rewrite !Forall_cons, Forall_app. simpl. rewrite !expr_value_terms.
  destruct md, mt; simpl;
    rewrite ?Forall_singleton, ?Forall_nil; simpl;
    rewrite ?expr_value_terms; tauto.
Qed.

Section BuildProblem.
Context (profits : gmap string Qc) (x : gmap string LpVariable)
        (jobs : list Job).
Hypothesis profits_ok :
  ∀ job, job ∈ jobs → getitem profits (id job) = Ok (entry profits job).
Hypothesis x_ok :
  ∀ job, job ∈ jobs → getitem x (id job) = Ok (var_of job).

Lemma build_problem_nonempty cfg md mt :
  jobs ≠ [] →
  build_problem profits x jobs cfg md mt
    = Ok (problem_of profits jobs cfg md mt).
Proof using profits_ok x_ok.
  intros Hne. unfold build_problem.
  rewrite (linear_terms_ok (λ job, getitem profits (id job)) (entry profits))
    by auto.
  rewrite (linear_terms_ok (λ job, Ok (hours job)) hours) by auto.
  rewrite (linear_terms_ok (λ job, Ok (pallets job)) pallets) by auto.
  rewrite (linear_terms_ok (λ job, Ok (deadhead_miles job)) deadhead_miles)
    by auto.
  rewrite (linear_terms_ok
             (λ job, Ok (loaded_miles job + deadhead_miles job))
             (λ job, loaded_miles job + deadhead_miles job)) by auto.
  unfold problem_of.
  destruct jobs as [|job rest]; [done|].
  by destruct md as [b1|], mt as [b2|].
Qed.
End BuildProblem.

(** With no job left, every sum is the integer [0] and every constraint a
    Python boolean: the problem stays empty when all of them are [True],
    and the first [False] raises. *)
Lemma build_problem_empty_ok profits x cfg md mt :
  satisfies_bounds cfg md mt [] →
  build_problem profits x [] cfg md mt
    = Ok {| objective := []; constraints := [] |}.
Proof.
  intros (Hh & Hp & Hd & Ht). unfold build_problem. simpl in *.
  rewrite !bool_decide_eq_true_2 by done. simpl.
  destruct md, mt; simpl in *; rewrite ?bool_decide_eq_true_2 by done; done.
Qed.

Lemma build_problem_empty_raises profits x cfg md mt :
  ¬ satisfies_bounds cfg md mt [] →
  ∃ msg, build_problem profits x [] cfg md mt = Raise (TypeError msg).
Proof.
  intros Hno. unfold build_problem. simpl.
  destruct (decide (0 ≤ max_hours cfg)) as [Hh|Hh];
    [rewrite (bool_decide_eq_true_2 _ Hh)
    |rewrite (bool_decide_eq_false_2 _ Hh); simpl; eauto].
  destruct (decide (0 ≤ max_pallets cfg)) as [Hp|Hp];
    [rewrite (bool_decide_eq_true_2 _ Hp)
    |rewrite (bool_decide_eq_false_2 _ Hp); simpl; eauto].
  simpl. destruct md as [b1|]; simpl.
  - destruct (decide (0 ≤ b1)) as [H1|H1];
      [rewrite (bool_decide_eq_true_2 _ H1)
      |rewrite (bool_decide_eq_false_2 _ H1); simpl; eauto].
    simpl. destruct mt as [b2|]; simpl;
      [|by destruct Hno; repeat split].
    destruct (decide (0 ≤ b2)) as [H2|H2];
      [by destruct Hno; repeat split
      |rewrite (bool_decide_eq_false_2 _ H2); simpl; eauto].
  - destruct mt as [b2|]; simpl; [|by destruct Hno; repeat split].
    destruct (decide (0 ≤ b2)) as [H2|H2];
      [by destruct Hno; repeat split
      |rewrite (bool_decide_eq_false_2 _ H2); simpl; eauto].
Qed.

(** ** Reading the solution *)

Lemma extract_solution_ok profits x vals jobs acc :
  (∀ job, job ∈ jobs → getitem profits (id job) = Ok (entry profits job)) →
  (∀ job, job ∈ jobs → getitem x (id job) = Ok (var_of job)) →
  extract_solution profits x vals jobs acc
    = Ok {| acc_chosen := acc_chosen acc ++ selection (selected vals) jobs;
            acc_profit := acc_profit acc
              + sum_over (entry profits) (selection (selected vals) jobs);
            acc_hours := acc_hours acc
              + sum_over hours (selection (selected vals) jobs);
            acc_pallets := acc_pallets acc
              + sum_over pallets (selection (selected vals) jobs) |}.
Proof.
  unfold selection. revert acc.
  induction jobs as [|job jobs IH]; intros acc Hp Hx.
  - simpl. rewrite app_nil_r, !Qcplus_0_r. by destruct acc.
  - simpl. rewrite Hx by set_solver. simpl. rewrite filter_cons.
    destruct (selected vals (var_of job)); simpl.
    + rewrite Hp by set_solver. simpl.
      rewrite IH; [|intros; apply Hp; set_solver|intros; apply Hx; set_solver].
      simpl. rewrite <- app_assoc. simpl. f_equal. f_equal; ring.
    + apply IH; intros; [apply Hp|apply Hx]; set_solver.
Qed.

(** ** One run of [optimize_jobs] *)

Section Run.
Variable solve : LpProblem → LpStatusCode * gmap string Qc.
Context (jobs : list Job) (cfg : ProblemConfig)
        (max_deadhead max_total_miles min_profit_per_job : option Qc).

Local Abbreviation profits := (compute_profits jobs cfg).
Local Abbreviation kept := (eligible profits jobs min_profit_per_job).

Lemma kept_profits_ok job :
  job ∈ kept → getitem profits (id job) = Ok (entry profits job).
Proof. intros Hin%eligible_elem. by apply getitem_profits. Qed.

(** The problem handed to the solver: its constraints are the bounds on
    the selected jobs, its objective the sum of their dictionary entries. *)
Lemma build_problem_kept :
  kept ≠ [] ∨ satisfies_bounds cfg max_deadhead max_total_miles [] →
  ∃ p,
    build_problem profits (make_variables kept) kept cfg
      max_deadhead max_total_miles = Ok p
    ∧ (∀ a, lp_feasible p a
            ↔ satisfies_bounds cfg max_deadhead max_total_miles
                (selection a kept))
    ∧ (∀ a, expr_value (objective p) a
            = sum_over (entry profits) (selection a kept)).
Proof.
  intros Hpre. destruct (decide (kept = [])) as [Hnil|Hne].
  - destruct Hpre as [?|Hb]; [done|]. rewrite Hnil.
    eexists. split; [by apply build_problem_empty_ok|].
    split; [|done]. intros a. unfold lp_feasible. simpl.
    split; [done|intros; apply Forall_nil_2].
  - exists (problem_of profits kept cfg max_deadhead max_total_miles).
    split.
    + apply build_problem_nonempty; [|intros; by apply getitem_variables|done].
      apply kept_profits_ok.
    + split; [apply problem_of_feasible|]. intros a. apply expr_value_terms.
Qed.

Lemma optimize_jobs_run :
  kept ≠ [] ∨ satisfies_bounds cfg max_deadhead max_total_miles [] →
  ∃ p,
    build_problem profits (make_variables kept) kept cfg
      max_deadhead max_total_miles = Ok p
    ∧ (∀ a, lp_feasible p a
          ↔ satisfies_bounds cfg max_deadhead max_total_miles
              (selection a kept))
    ∧ (∀ a, expr_value (objective p) a
            = sum_over (entry profits) (selection a kept))
    ∧ optimize_jobs solve jobs cfg max_deadhead max_total_miles
        min_profit_per_job
      = Ok (let chosen := selection (selected (solve p).2) kept in
            {| status := LpStatus (solve p).1;
               total_profit := sum_over (entry profits) chosen;
               total_hours := sum_over hours chosen;
               total_pallets := sum_over pallets chosen;
               chosen_jobs := chosen;
               all_profits := profits |}).
Proof.
  intros Hpre. destruct (build_problem_kept Hpre) as (p & Hp & Hfeas & Hobj).
  exists p. do 3 (split; [done|]).
  unfold optimize_jobs. rewrite filter_jobs_eligible. simpl.
  rewrite Hp. simpl. destruct (solve p) as [st vals]. simpl.
  rewrite extract_solution_ok;
    [|apply kept_profits_ok|intros; by apply getitem_variables].
  simpl. by rewrite !Qcplus_0_l.
Qed.

(** The only run that raises: no job is left and some bound is negative. *)
Lemma optimize_jobs_raises :
  kept = [] → ¬ satisfies_bounds cfg max_deadhead max_total_miles [] →
  ∃ msg, optimize_jobs solve jobs cfg max_deadhead max_total_miles
           min_profit_per_job = Raise (TypeError msg).
Proof.
  intros Hnil Hno. unfold optimize_jobs. rewrite filter_jobs_eligible. simpl.
  rewrite Hnil.
  destruct (build_problem_empty_raises profits (make_variables []) cfg
              max_deadhead max_total_miles Hno) as [msg ->].
  by exists msg.
Qed.
End Run.

(** ** Selections and sub-lists *)

Lemma filter_ext_elem {A} (P Q : A → Prop) `{∀ x, Decision (P x)}
    `{∀ x, Decision (Q x)} (l : list A) :
  (∀ x, x ∈ l → P x ↔ Q x) → filter P l = filter Q l.
Proof.
  induction l as [|x l IH]; intros HPQ; [done|].
  rewrite !filter_cons. rewrite IH by (intros; apply HPQ; by constructor).
  assert (P x ↔ Q x) as Hx by (apply HPQ; by constructor).
  destruct (decide (P x)), (decide (Q x)); tauto.
Qed.

Lemma selection_sublist a jobs : selection a jobs `sublist_of` jobs.
Proof. apply sublist_filter. Qed.

Lemma selection_none jobs : selection (λ _, false) jobs = [].
Proof.
  unfold selection. induction jobs as [|job jobs IH]; [done|].
  rewrite filter_cons_False; [done|by intros []].
Qed.

Lemma picks_var_of sel job :
  picks (var_of <$> sel) (var_of job) ↔ id job ∈ id <$> sel.
Proof.
  unfold picks. rewrite bool_decide_spec, !list_elem_of_fmap. split.
  - intros (job' & Hv & Hin). exists job'. split; [by apply var_of_inj|done].
  - intros (job' & Hi & Hin). exists job'. split; [|done].
    unfold var_of. by rewrite Hi.
Qed.

(** With distinct ids, each sub-list is selected by the assignment that
    picks the variables of its jobs. *)
Lemma selection_picks jobs sel :
  NoDup (id <$> jobs) → sel `sublist_of` jobs →
  selection (picks (var_of <$> sel)) jobs = sel.
Proof.
  intros Hnd Hsub. unfold selection.
  induction Hsub as [|job l1 l2 Hsub IH|job l1 l2 Hsub IH]; [done|..];
    rewrite fmap_cons in Hnd; apply NoDup_cons in Hnd as [Hout Hnd].
  - rewrite filter_cons_True by (apply picks_var_of; set_solver).
    f_equal. etrans; [|apply (IH Hnd)]. apply filter_ext_elem.
    intros job' Hin. rewrite !picks_var_of, fmap_cons, elem_of_cons.
    split; [intros [Heq|?]; [|done]|by right].
    destruct Hout. rewrite <- Heq. apply list_elem_of_fmap. eauto.
  - rewrite filter_cons_False; [by apply IH|].
    rewrite picks_var_of. intros Hin. apply Hout.
    eapply elem_of_sublist; [done|]. by apply fmap_sublist.
Qed.

Lemma sum_over_ext f g (sel : list Job) :
  (∀ job, job ∈ sel → f job = g job) → sum_over f sel = sum_over g sel.
Proof.
  induction sel as [|job sel IH]; intros Hfg; [done|].
  simpl. rewrite Hfg, IH by set_solver. done.
Qed.

Lemma sum_over_nonneg f (sel : list Job) :
  (∀ job, job ∈ sel → 0 ≤ f job) → 0 ≤ sum_over f sel.
Proof.
  induction sel as [|job sel IH]; intros Hf; [done|].
  simpl. apply Qcplus_nonneg_nonneg; [|apply IH]; set_solver.
Qed.

Lemma sum_over_entry_NoDup jobs cfg sel :
  NoDup (id <$> jobs) → sel ⊆ jobs →
  sum_over (entry (compute_profits jobs cfg)) sel
    = sum_over (λ job, compute_job_profit job cfg) sel.
Proof.
  intros Hnd Hsub. apply sum_over_ext. intros job Hin.
  apply entry_NoDup; [done|]. by apply Hsub.
Qed.

(** ** Enumeration of sub-lists *)

Lemma elem_of_powerlist {A} (l k : list A) :
  k ∈ powerlist l ↔ k `sublist_of` l.
Proof.
  revert k. induction l as [|x l IH]; intros k; simpl.
  - rewrite list_elem_of_singleton, sublist_nil_r. done.
  - rewrite elem_of_app, list_elem_of_fmap, sublist_cons_r. rewrite IH.
    split.
    + intros [(k' & -> & Hk')|?]; [right|by left].
      exists k'. split; [done|]. by apply IH.
    + intros [?|(k' & -> & Hk')]; [by right|left].
      exists k'. split; [done|]. by apply IH.
Qed.

Lemma max_of_None l : max_of l = None → l = [].
Proof. destruct l as [|q l]; [done|]. simpl. by destruct (max_of l). Qed.

Lemma max_of_Some l m :
  max_of l = Some m → m ∈ l ∧ ∀ q, q ∈ l → q ≤ m.
Proof.
  revert m. induction l as [|q l IH]; intros m Hm; [done|].
  simpl in Hm. destruct (max_of l) as [m'|] eqn:Hl.
  - destruct (IH m' eq_refl) as [Hin Hmax]. simplify_eq.
    case_bool_decide as Hle.
    + split; [by constructor|]. intros q' [->|Hq']%elem_of_cons; [done|].
      trans m'; auto.
    + split; [by constructor|]. intros q' [Heq|Hq']%elem_of_cons; [|auto].
      subst q'. by destruct (total (≤) m' q).
  - apply max_of_None in Hl as ->. simplify_eq.
    split; [by constructor|]. by intros q' ->%list_elem_of_singleton.
Qed.

Lemma max_of_greatest l m :
  m ∈ l → (∀ q, q ∈ l → q ≤ m) → max_of l = Some m.
Proof.
  intros Hin Hmax. destruct (max_of l) as [m'|] eqn:Hl.
  - apply max_of_Some in Hl as [Hin' Hmax']. f_equal.
    apply (anti_symm (≤)); auto.
  - apply max_of_None in Hl as ->. by apply elem_of_nil in Hin.
Qed.

Lemma exhaustive_optimum_greatest cfg md mt jobs sel :
  sel `sublist_of` jobs → satisfies_bounds cfg md mt sel →
  (∀ sel', sel' `sublist_of` jobs → satisfies_bounds cfg md mt sel' →
     sum_over (λ job, compute_job_profit job cfg) sel'
       ≤ sum_over (λ job, compute_job_profit job cfg) sel) →
  exhaustive_optimum cfg md mt jobs
    = Some (sum_over (λ job, compute_job_profit job cfg) sel).
Proof.
  intros Hsub Hsat Hmax. apply max_of_greatest.
  - apply list_elem_of_fmap. exists sel. split; [done|].
    apply list_elem_of_filter. split; [done|]. by apply elem_of_powerlist.
  - intros q (sel' & -> & [Hsat' Hin]%list_elem_of_filter)%list_elem_of_fmap.
    apply Hmax; [|done]. by apply elem_of_powerlist.
Qed.

Lemma exhaustive_optimum_Some cfg md mt jobs m :
  exhaustive_optimum cfg md mt jobs = Some m →
  (∃ sel, sel `sublist_of` jobs ∧ satisfies_bounds cfg md mt sel
          ∧ sum_over (λ job, compute_job_profit job cfg) sel = m)
  ∧ (∀ sel, sel `sublist_of` jobs → satisfies_bounds cfg md mt sel →
       sum_over (λ job, compute_job_profit job cfg) sel ≤ m).
Proof.
  intros [Hin Hmax]%max_of_Some. split.
  - apply list_elem_of_fmap in Hin
      as (sel & -> & [Hsat Hsub%elem_of_powerlist]%list_elem_of_filter).
    eauto.
  - intros sel Hsub Hsat. apply Hmax, list_elem_of_fmap.
    exists sel. split; [done|]. apply list_elem_of_filter.
    split; [done|]. by apply elem_of_powerlist.
Qed.

(** ** The solver by enumeration is exact *)

Lemma expr_value_ext e a b :
  (∀ v, v ∈ e.*1 → a v = b v) → expr_value e a = expr_value e b.
Proof.
  induction e as [|[v c] e IH]; intros Hab; [done|].
  simpl. rewrite (Hab v) by (by constructor).
  rewrite IH; [done|]. intros; apply Hab. by constructor.
Qed.

Lemma problem_vars_objective p v :
  v ∈ (objective p).*1 → v ∈ problem_vars p.
Proof.
  intros. unfold problem_vars. rewrite elem_of_remove_dups, elem_of_app.
  by left.
Qed.

Lemma problem_vars_constraint p c v :
  c ∈ constraints p → v ∈ (lhs c).*1 → v ∈ problem_vars p.
Proof.
  intros Hc Hv. unfold problem_vars.
  rewrite elem_of_remove_dups, elem_of_app. right.
  apply list_elem_of_join. exists ((lhs c).*1). split; [done|].
  apply list_elem_of_fmap. eauto.
Qed.

Lemma lp_feasible_ext p a b :
  (∀ v, v ∈ problem_vars p → a v = b v) → lp_feasible p a → lp_feasible p b.
Proof.
  intros Hab. unfold lp_feasible. rewrite !Forall_forall.
  intros Ha c Hc. rewrite <- (expr_value_ext (lhs c) a b); [by apply Ha|].
  intros v Hv. apply Hab. by eapply problem_vars_constraint.
Qed.

Lemma picks_filter (a : LpVariable → bool) vars v :
  v ∈ vars → picks (filter (λ v, a v) vars) v = a v.
Proof.
  intros Hv. unfold picks. destruct (a v) eqn:Hav.
  - apply bool_decide_eq_true_2, list_elem_of_filter. by rewrite Hav.
  - apply bool_decide_eq_false_2. rewrite list_elem_of_filter, Hav.
    by intros [? _].
Qed.

Lemma values_of_lookup vars c v :
  values_of vars c !! v
    = if bool_decide (v ∈ vars) then Some (if picks c v then 1 else 0)
      else None.
Proof.
  induction vars as [|w vars IH]; [done|]. simpl.
  destruct (decide (w = v)) as [->|Hne].
  - rewrite lookup_insert_eq, bool_decide_eq_true_2; [done|by constructor].
  - rewrite lookup_insert_ne, IH by done.
    apply (f_equal (λ b : bool, if b then _ else _)), bool_decide_ext.
    rewrite elem_of_cons. split; [tauto|intros [?|?]; [congruence|done]].
Qed.

Lemma selected_values_of vars c v :
  c ⊆ vars → selected (values_of vars c) v = picks c v.
Proof.
  intros Hsub. unfold selected, value. rewrite values_of_lookup.
  case_bool_decide as Hv.
  - by destruct (picks c v).
  - unfold picks. symmetry. apply bool_decide_eq_false_2.
    intros Hc. by apply Hv, Hsub.
Qed.

Lemma best_choice_None obj choices : best_choice obj choices = None → choices = [].
Proof.
  destruct choices as [|c rest]; [done|]. simpl.
  by destruct (best_choice obj rest).
Qed.

Lemma best_choice_Some obj choices c :
  best_choice obj choices = Some c →
  c ∈ choices ∧ ∀ d, d ∈ choices → obj d ≤ obj c.
Proof.
  revert c. induction choices as [|c' rest IH]; intros c Hc; [done|].
  simpl in Hc. destruct (best_choice obj rest) as [d|] eqn:Hrest.
  - destruct (IH d eq_refl) as [Hin Hmax]. simplify_eq.
    case_bool_decide as Hle.
    + split; [by constructor|]. intros e [->|He]%elem_of_cons; [done|].
      trans (obj d); auto.
    + split; [by constructor|]. intros e [Heq|He]%elem_of_cons; [|auto].
      subst e. by destruct (total (≤) (obj d) (obj c')).
  - apply best_choice_None in Hrest as ->. simplify_eq.
    split; [by constructor|]. by intros e ->%list_elem_of_singleton.
Qed.

Section Enumerate.
Context (p : LpProblem).

Local Abbreviation choices :=
  (filter (λ c, lp_feasible p (picks c)) (powerlist (problem_vars p))).

Lemma choice_of_assignment a :
  lp_feasible p a → filter (λ v, a v) (problem_vars p) ∈ choices.
Proof.
  intros Ha. apply list_elem_of_filter. split.
  - eapply lp_feasible_ext; [|done]. intros v Hv. by rewrite picks_filter.
  - apply elem_of_powerlist, sublist_filter.
Qed.

Lemma enumerate_solve_Optimal c :
  best_choice (λ c, expr_value (objective p) (picks c)) choices = Some c →
  (enumerate_solve p).1 = LpStatusOptimal
  ∧ lp_feasible p (selected (enumerate_solve p).2)
  ∧ ∀ a, lp_feasible p a →
      expr_value (objective p) a
        ≤ expr_value (objective p) (selected (enumerate_solve p).2).
Proof.
  intros Hbest. unfold enumerate_solve. rewrite Hbest. simpl.
  apply best_choice_Some in Hbest as [Hin Hmax].
  apply list_elem_of_filter in Hin as [Hfeas Hsub%elem_of_powerlist].
  apply sublist_subseteq in Hsub.
  assert (∀ e, expr_value e (selected (values_of (problem_vars p) c))
               = expr_value e (picks c)) as Hval.
  { intros e. apply expr_value_ext. intros v _.
    by apply selected_values_of. }
  split; [done|]. split.
  - eapply lp_feasible_ext; [|done]. intros v _.
    symmetry. by apply selected_values_of.
  - intros a Ha. rewrite Hval.
    rewrite (expr_value_ext _ a (picks (filter (λ v, a v) (problem_vars p)))).
    + apply (Hmax _ (choice_of_assignment a Ha)).
    + intros v Hv. symmetry. apply picks_filter.
      by apply problem_vars_objective.
Qed.
End Enumerate.

Lemma enumerate_solve_exact : exact_solver enumerate_solve.
Proof.
  split.
  - intros p. unfold enumerate_solve.
    destruct (best_choice _ _); simpl; auto.
  - intros p a Ha.
    destruct (best_choice (λ c, expr_value (objective p) (picks c))
                (filter (λ c, lp_feasible p (picks c))
                   (powerlist (problem_vars p)))) as [c|] eqn:Hbest.
    + by apply (enumerate_solve_Optimal p c).
    + apply best_choice_None in Hbest.
      pose proof (choice_of_assignment p a Ha) as Hin.
      rewrite Hbest in Hin. by apply elem_of_nil in Hin.
  - intros p Hst.
    destruct (best_choice (λ c, expr_value (objective p) (picks c))
                (filter (λ c, lp_feasible p (picks c))
                   (powerlist (problem_vars p)))) as [c|] eqn:Hbest.
    + by apply (enumerate_solve_Optimal p c).
    + unfold enumerate_solve in Hst. by rewrite Hbest in Hst.
  - intros p a Hst Ha.
    destruct (best_choice (λ c, expr_value (objective p) (picks c))
                (filter (λ c, lp_feasible p (picks c))
                   (powerlist (problem_vars p)))) as [c|] eqn:Hbest.
    + by apply (enumerate_solve_Optimal p c).
    + unfold enumerate_solve in Hst. by rewrite Hbest in Hst.
Qed.

(** ** When a run returns *)

Lemma optimize_jobs_Ok_iff solve jobs cfg md mt mp :
  (∃ r, optimize_jobs solve jobs cfg md mt mp = Ok r)
  ↔ no_false_constraint jobs cfg md mt mp.
Proof.
  split.
  - intros [r Hr]. unfold no_false_constraint.
    destruct (decide (satisfies_bounds cfg md mt [])) as [?|Hno]; [by right|].
    left. intros Hnil.
    destruct (optimize_jobs_raises solve jobs cfg md mt mp Hnil Hno)
      as [msg Hmsg].
    by rewrite Hmsg in Hr.
  - intros Hpre.
    destruct (optimize_jobs_run solve jobs cfg md mt mp Hpre)
      as (p & _ & _ & _ & Hrun).
    eauto.
Qed.

(** What a run that returns has built and read: the problem handed to the
    solver, and the result made from the values the solver left. *)
Lemma optimize_jobs_Ok_problem solve jobs cfg md mt mp r :
  optimize_jobs solve jobs cfg md mt mp = Ok r →
  ∃ p,
    build_problem (compute_profits jobs cfg)
      (make_variables (candidates jobs cfg mp)) (candidates jobs cfg mp)
      cfg md mt = Ok p
    ∧ (candidates jobs cfg mp ≠ [] →
       p = problem_of (compute_profits jobs cfg) (candidates jobs cfg mp)
             cfg md mt)
    ∧ (candidates jobs cfg mp = [] →
       p = {| objective := []; constraints := [] |})
    ∧ objective p
        = terms_of (entry (compute_profits jobs cfg)) (candidates jobs cfg mp)
    ∧ (∀ a, lp_feasible p a
            ↔ satisfies_bounds cfg md mt
                (selection a (candidates jobs cfg mp)))
    ∧ (∀ a, expr_value (objective p) a
            = sum_over (entry (compute_profits jobs cfg))
                (selection a (candidates jobs cfg mp)))
    ∧ r = (let chosen :=
             selection (selected (solve p).2) (candidates jobs cfg mp) in
           {| status := LpStatus (solve p).1;
              total_profit := sum_over (entry (compute_profits jobs cfg)) chosen;
              total_hours := sum_over hours chosen;
              total_pallets := sum_over pallets chosen;
              chosen_jobs := chosen;
              all_profits := compute_profits jobs cfg |}).
Proof.
  intros Hr.
  assert (no_false_constraint jobs cfg md mt mp) as Hpre
    by (apply (optimize_jobs_Ok_iff solve); eauto).
  destruct (optimize_jobs_run solve jobs cfg md mt mp Hpre)
    as (p & Hp & Hfeas & Hobj & Hrun).
  rewrite Hrun in Hr. injection Hr as <-.
  exists p. split; [exact Hp|].
  assert (candidates jobs cfg mp ≠ [] →
          p = problem_of (compute_profits jobs cfg) (candidates jobs cfg mp)
                cfg md mt) as Hne.
  { intros Hne. unfold candidates in *.
    rewrite build_problem_nonempty in Hp; [by injection Hp| | |done].
    - apply kept_profits_ok.
    - intros; by apply getitem_variables. }
  split; [exact Hne|].
  assert (candidates jobs cfg mp = [] →
          p = {| objective := []; constraints := [] |}) as Hnil.
  { intros Hnil. destruct Hpre as [?|Hb]; [done|]. unfold candidates in *.
    rewrite Hnil in Hp. rewrite build_problem_empty_ok in Hp by done.
    by injection Hp. }
  split; [exact Hnil|]. split; [|done].
  destruct (decide (candidates jobs cfg mp = [])) as [Hempty|Hsome].
  - rewrite (Hnil Hempty), Hempty. done.
  - by rewrite (Hne Hsome).
Qed.

Lemma within_bound bound s :
  within bound s ↔ ∀ b, bound = Some b → s ≤ b.
Proof.
  destruct bound as [b|]; simpl.
  - split; [by intros ? ? [= <-]|eauto].
  - split; [done|done].
Qed.

(** ** The properties of [optimize_jobs] *)

(** C3, as stated, fails on the numbers the program computes with.  For a
    revenue of 700, 120 loaded and 6 deadhead miles, 4 hours, fuel at 0.7 a
    mile and a driver at 25 an hour, [compute_job_profit] returns
    511.80000000000001, and the expression of the claim, evaluated from
    left to right, is 511.79999999999995. *)
Lemma profit_formula_rounds_apart :
  compute_job_profit_binary64 700 120 6 4 seven_tenths 25
    = 0x1.ffccccccccccdp+8%float
  ∧ claimed_profit_binary64 700 120 6 4 seven_tenths 25
    = 0x1.ffcccccccccccp+8%float
  ∧ PrimFloat.eqb (compute_job_profit_binary64 700 120 6 4 seven_tenths 25)
      (claimed_profit_binary64 700 120 6 4 seven_tenths 25) = false.
Proof. repeat split; vm_compute; reflexivity. Qed.

(** C3, amended. The profit of a job is its revenue minus its total cost,
    the total cost being the fuel cost, loaded plus deadhead miles times
    the fuel cost per mile, plus the labor cost, hours times the driver
    cost per hour: the cost is added up first and subtracted once, on
    doubles with each operation rounded, and on exact numbers alike.  The
    value depends on these six numbers and on nothing else in the job or
    the configuration. *)
Theorem compute_job_profit_formula (job job' : Job) (cfg cfg' : ProblemConfig) :
  (∀ rev loaded deadhead hrs fuel driver : float,
     compute_job_profit_binary64 rev loaded deadhead hrs fuel driver
       = (rev - ((loaded + deadhead) * fuel + hrs * driver))%float)
  ∧ compute_job_profit job cfg
      = revenue job
        - ((loaded_miles job + deadhead_miles job) * fuel_cost_per_mile cfg
           + hours job * driver_cost_per_hour cfg)
  ∧ (revenue job' = revenue job →
     loaded_miles job' = loaded_miles job →
     deadhead_miles job' = deadhead_miles job →
     hours job' = hours job →
     fuel_cost_per_mile cfg' = fuel_cost_per_mile cfg →
     driver_cost_per_hour cfg' = driver_cost_per_hour cfg →
     compute_job_profit job' cfg' = compute_job_profit job cfg).
Proof.
  split; [done|]. split; [done|].
  intros Hrev Hloaded Hdead Hhours Hfuel Hdriver. unfold compute_job_profit.
  by rewrite Hrev, Hloaded, Hdead, Hhours, Hfuel, Hdriver.
Qed.

Lemma compute_job_profit_formula_witness :
  compute_job_profit
    (mk_job "7" (rat 700 1) (rat 120 1) 0 (rat 3 1) (rat 5 1)) negative_hours_cfg
  = compute_job_profit
      (mk_job "1" (rat 700 1) (rat 120 1) 0 (rat 3 1) (rat 2 1)) demo_cfg.
Proof.
  exact (proj2 (proj2 (compute_job_profit_formula
           (mk_job "1" (rat 700 1) (rat 120 1) 0 (rat 3 1) (rat 2 1))
           (mk_job "7" (rat 700 1) (rat 120 1) 0 (rat 3 1) (rat 5 1))
           demo_cfg negative_hours_cfg))
         eq_refl eq_refl eq_refl eq_refl eq_refl eq_refl).
Defined.

(** C7. For a list of jobs with distinct ids, the result of a run maps the
    id of every input job to its computed profit in [all_profits], whether
    the filter kept the job or not and whether it was chosen or not. *)
Theorem all_profits_complete solve jobs cfg md mt mp :
  NoDup (id <$> jobs) →
  no_false_constraint jobs cfg md mt mp →
  ∃ r, optimize_jobs solve jobs cfg md mt mp = Ok r
       ∧ ∀ job, job ∈ jobs →
           all_profits r !! id job = Some (compute_job_profit job cfg).
Proof.
  intros Hnd Hpre.
  destruct (optimize_jobs_run solve jobs cfg md mt mp Hpre)
    as (p & _ & _ & _ & Hrun).
  eexists. split; [done|]. simpl. intros job Hin. by apply profits_NoDup.
Qed.

Lemma all_profits_complete_witness :
  NoDup (id <$> demo_jobs)
  ∧ no_false_constraint demo_jobs demo_cfg None None (Some (rat 500 1))
  ∧ ∃ r, optimize_jobs enumerate_solve demo_jobs demo_cfg None None
           (Some (rat 500 1)) = Ok r
         ∧ ∀ job, job ∈ demo_jobs →
             all_profits r !! id job = Some (compute_job_profit job demo_cfg).
Proof.
  assert (NoDup (id <$> demo_jobs)) as Hnd by compute_done.
  assert (no_false_constraint demo_jobs demo_cfg None None
            (Some (rat 500 1))) as Hpre by (right; compute_done).
  split; [exact Hnd|]. split; [exact Hpre|].
  exact (all_profits_complete enumerate_solve demo_jobs demo_cfg None None
           (Some (rat 500 1)) Hnd Hpre).
Defined.

(** C9. The totals of a result are the sums over the chosen jobs: of their
    hours, of their pallets, and of their entries in the profit mapping,
    which with distinct ids are their computed profits.  The chosen jobs
    are exactly the candidates whose variable the solver left above one
    half: the loop that adds up decides nothing. *)
Theorem totals_are_sums solve jobs cfg md mt mp :
  no_false_constraint jobs cfg md mt mp →
  ∃ r p,
    optimize_jobs solve jobs cfg md mt mp = Ok r
    ∧ build_problem (compute_profits jobs cfg)
        (make_variables (candidates jobs cfg mp)) (candidates jobs cfg mp)
        cfg md mt = Ok p
    ∧ chosen_jobs r
        = selection (selected (solve p).2) (candidates jobs cfg mp)
    ∧ total_hours r = sum_over hours (chosen_jobs r)
    ∧ total_pallets r = sum_over pallets (chosen_jobs r)
    ∧ total_profit r = sum_over (entry (all_profits r)) (chosen_jobs r)
    ∧ (NoDup (id <$> jobs) →
       total_profit r
         = sum_over (λ job, compute_job_profit job cfg) (chosen_jobs r)).
Proof.
  intros Hpre.
  destruct (optimize_jobs_run solve jobs cfg md mt mp Hpre)
    as (p & Hp & _ & _ & Hrun).
  eexists _, p. split; [done|]. simpl. do 5 (split; [done|]).
  intros Hnd. apply sum_over_entry_NoDup; [done|].
  intros job Hin%(elem_of_sublist _ _ _)%eligible_elem; [done|].
  apply selection_sublist.
Qed.

Lemma totals_are_sums_witness :
  no_false_constraint demo_jobs demo_cfg None None None
  ∧ ∃ r, optimize_jobs enumerate_solve demo_jobs demo_cfg None None None
           = Ok r
         ∧ total_hours r = sum_over hours (chosen_jobs r)
         ∧ total_pallets r = sum_over pallets (chosen_jobs r)
         ∧ total_profit r = sum_over (entry (all_profits r)) (chosen_jobs r).
Proof.
  assert (no_false_constraint demo_jobs demo_cfg None None None) as Hpre
    by (right; compute_done).
  split; [exact Hpre|].
  destruct (totals_are_sums enumerate_solve demo_jobs demo_cfg None None
              None Hpre) as (r & p & Hr & _ & _ & Hh & Hp & Ht & _).
  exists r. repeat split; assumption.
Defined.

(** C10. The chosen jobs are a sub-list of the candidates left by the
    filter, hence of the input list: each is an input job, in the order of
    the input; and when no job, or no id, occurs twice in the input, none
    occurs twice among the chosen jobs. *)
Theorem chosen_jobs_subsequence solve jobs cfg md mt mp :
  no_false_constraint jobs cfg md mt mp →
  ∃ r, optimize_jobs solve jobs cfg md mt mp = Ok r
       ∧ chosen_jobs r `sublist_of` candidates jobs cfg mp
       ∧ chosen_jobs r `sublist_of` jobs
       ∧ (NoDup jobs → NoDup (chosen_jobs r))
       ∧ (NoDup (id <$> jobs) → NoDup (id <$> chosen_jobs r)).
Proof.
  intros Hpre.
  destruct (optimize_jobs_run solve jobs cfg md mt mp Hpre)
    as (p & _ & _ & _ & Hrun).
  eexists. split; [done|]. simpl.
  assert (selection (selected (solve p).2)
            (eligible (compute_profits jobs cfg) jobs mp)
          `sublist_of` jobs) as Hsub.
  { etrans; [apply selection_sublist|apply eligible_sublist]. }
  split; [apply selection_sublist|]. split; [done|]. split.
  - intros Hnd. by eapply sublist_NoDup.
  - intros Hnd.
    apply (sublist_NoDup _ (id <$> jobs)); [done|by apply fmap_sublist].
Qed.

Lemma chosen_jobs_subsequence_witness :
  no_false_constraint demo_jobs demo_cfg None None None
  ∧ ∃ r, optimize_jobs enumerate_solve demo_jobs demo_cfg None None None
           = Ok r
         ∧ chosen_jobs r `sublist_of` demo_jobs
         ∧ (NoDup (id <$> demo_jobs) → NoDup (id <$> chosen_jobs r)).
Proof.
  assert (no_false_constraint demo_jobs demo_cfg None None None) as Hpre
    by (right; compute_done).
  split; [exact Hpre|].
  destruct (chosen_jobs_subsequence enumerate_solve demo_jobs demo_cfg None
              None None Hpre) as (r & Hr & _ & Hsub & _ & Hnd).
  exists r. repeat split; assumption.
Defined.

(** C5. With a floor, the filter keeps exactly the jobs whose entry in the
    profit mapping is at least the floor, in their order, and drops the
    others; with distinct ids the entry of a job is its computed profit.
    The kept jobs, and no others, go into the problem handed to the solver:
    its objective has one term for each of them, and the chosen jobs of a
    run are the kept jobs whose variable the solver left above one half.
    So only kept jobs can be chosen.  Without a floor the list is
    unchanged, and every job goes into the problem. *)
Theorem filter_by_floor solve jobs cfg md mt floor :
  filter_jobs (compute_profits jobs cfg) jobs (Some floor)
    = Ok (filter (λ job, floor ≤ entry (compute_profits jobs cfg) job) jobs)
  ∧ filter_jobs (compute_profits jobs cfg) jobs None = Ok jobs
  ∧ (NoDup (id <$> jobs) →
     filter_jobs (compute_profits jobs cfg) jobs (Some floor)
       = Ok (filter (λ job, floor ≤ compute_job_profit job cfg) jobs))
  ∧ (no_false_constraint jobs cfg md mt (Some floor) →
     ∃ r, optimize_jobs solve jobs cfg md mt (Some floor) = Ok r
          ∧ ∀ job, job ∈ chosen_jobs r →
              job ∈ jobs
              ∧ floor ≤ entry (all_profits r) job
              ∧ (NoDup (id <$> jobs) → floor ≤ compute_job_profit job cfg))
  ∧ (∀ r, optimize_jobs solve jobs cfg md mt (Some floor) = Ok r →
     ∃ p,
       build_problem (compute_profits jobs cfg)
         (make_variables
            (filter (λ job, floor ≤ entry (compute_profits jobs cfg) job)
               jobs))
         (filter (λ job, floor ≤ entry (compute_profits jobs cfg) job) jobs)
         cfg md mt = Ok p
       ∧ objective p
           = terms_of (entry (compute_profits jobs cfg))
               (filter (λ job, floor ≤ entry (compute_profits jobs cfg) job)
                  jobs)
       ∧ chosen_jobs r
           = selection (selected (solve p).2)
               (filter (λ job, floor ≤ entry (compute_profits jobs cfg) job)
                  jobs)
       ∧ ∀ job, job ∈ chosen_jobs r
                ↔ job ∈ jobs
                  ∧ floor ≤ entry (compute_profits jobs cfg) job
                  ∧ selected (solve p).2 (var_of job))
  ∧ (∀ r, optimize_jobs solve jobs cfg md mt None = Ok r →
     ∃ p,
       build_problem (compute_profits jobs cfg) (make_variables jobs) jobs
         cfg md mt = Ok p
       ∧ objective p = terms_of (entry (compute_profits jobs cfg)) jobs
       ∧ chosen_jobs r = selection (selected (solve p).2) jobs
       ∧ ∀ job, job ∈ chosen_jobs r
                ↔ job ∈ jobs ∧ selected (solve p).2 (var_of job)).
Proof.
  split; [apply filter_jobs_eligible|]. split; [done|]. split; [|split].
  - intros Hnd. rewrite filter_jobs_eligible. simpl. f_equal.
    apply filter_ext_elem. intros job Hin. by rewrite entry_NoDup.
  - intros Hpre.
    destruct (optimize_jobs_run solve jobs cfg md mt (Some floor) Hpre)
      as (p & _ & _ & _ & Hrun).
    eexists. split; [done|]. simpl. intros job Hin.
    eapply elem_of_sublist in Hin; [|apply selection_sublist].
    apply list_elem_of_filter in Hin as [Hfloor Hin].
    split; [done|]. split; [done|]. intros Hnd. by rewrite <- (entry_NoDup jobs).
  - split.
    + intros r Hr.
      destruct (optimize_jobs_Ok_problem _ _ _ _ _ _ _ Hr)
        as (p & Hp & _ & _ & Hobj & _ & _ & ->).
      exists p. do 3 (split; [done|]). simpl. intros job.
      unfold selection, candidates. simpl.
      rewrite !list_elem_of_filter. tauto.
    + intros r Hr.
      destruct (optimize_jobs_Ok_problem _ _ _ _ _ _ _ Hr)
        as (p & Hp & _ & _ & Hobj & _ & _ & ->).
      exists p. do 3 (split; [done|]). simpl. intros job.
      unfold selection, candidates. simpl.
      rewrite list_elem_of_filter. tauto.
Qed.

Lemma filter_by_floor_witness :
  NoDup (id <$> demo_jobs)
  ∧ no_false_constraint demo_jobs demo_cfg None None (Some (rat 500 1))
  ∧ filter_jobs (compute_profits demo_jobs demo_cfg) demo_jobs
      (Some (rat 500 1))
    = Ok (filter (λ job, rat 500 1 ≤ compute_job_profit job demo_cfg)
            demo_jobs)
  ∧ ∃ r, optimize_jobs enumerate_solve demo_jobs demo_cfg None None
           (Some (rat 500 1)) = Ok r
         ∧ ∀ job, job ∈ chosen_jobs r →
             rat 500 1 ≤ compute_job_profit job demo_cfg.
Proof.
  assert (NoDup (id <$> demo_jobs)) as Hnd by compute_done.
  assert (no_false_constraint demo_jobs demo_cfg None None
            (Some (rat 500 1))) as Hpre by (right; compute_done).
  split; [exact Hnd|]. split; [exact Hpre|].
  destruct (filter_by_floor enumerate_solve demo_jobs demo_cfg None None
              (rat 500 1)) as (_ & _ & Hfilter & Hrun & _).
  split; [exact (Hfilter Hnd)|].
  destruct (Hrun Hpre) as (r & Hr & Hchosen).
  exists r. split; [exact Hr|]. intros job Hin.
  exact (proj2 (proj2 (Hchosen job Hin)) Hnd).
Defined.

(** ** Runs with an exact solver *)

Lemma feasible_no_false_constraint jobs cfg md mt mp :
  feasible_selection (candidates jobs cfg mp) cfg md mt →
  no_false_constraint jobs cfg md mt mp.
Proof.
  intros [a Ha]. unfold no_false_constraint.
  destruct (candidates jobs cfg mp) as [|job rest]; [right; exact Ha|by left].
Qed.

Lemma empty_feasible_selection jobs cfg md mt :
  satisfies_bounds cfg md mt [] → feasible_selection jobs cfg md mt.
Proof.
  intros Hb. exists (λ _, false). unfold selection.
  replace (filter _ jobs) with (@nil Job); [done|].
  induction jobs as [|job jobs IH]; [done|].
  rewrite filter_cons_False; [done|by intros []].
Qed.

Section Exact.
Variable solve : LpProblem → LpStatusCode * gmap string Qc.
Hypothesis solve_exact : exact_solver solve.
Context (jobs : list Job) (cfg : ProblemConfig) (md mt mp : option Qc).

(** A run for which some selection is within the bounds. *)
Lemma feasible_run :
  feasible_selection (candidates jobs cfg mp) cfg md mt →
  ∃ r a,
    optimize_jobs solve jobs cfg md mt mp = Ok r
    ∧ status r = "Optimal"
    ∧ chosen_jobs r = selection a (candidates jobs cfg mp)
    ∧ satisfies_bounds cfg md mt (chosen_jobs r)
    ∧ total_profit r
        = sum_over (entry (compute_profits jobs cfg)) (chosen_jobs r)
    ∧ ∀ b, satisfies_bounds cfg md mt (selection b (candidates jobs cfg mp)) →
        sum_over (entry (compute_profits jobs cfg))
          (selection b (candidates jobs cfg mp)) ≤ total_profit r.
Proof using solve_exact.
  intros Hfeas.
  destruct (optimize_jobs_run solve jobs cfg md mt mp
              (feasible_no_false_constraint _ _ _ _ _ Hfeas))
    as (p & _ & Hp & Hobj & Hrun).
  destruct Hfeas as [a0 Ha0].
  assert ((solve p).1 = LpStatusOptimal) as Hst.
  { apply (solve_complete _ solve_exact p a0), Hp, Ha0. }
  eexists _, (selected (solve p).2). split; [done|]. simpl.
  rewrite Hst. split; [done|]. split; [done|]. split.
  { apply Hp. by apply solve_feasible. }
  split; [done|]. intros b Hb. rewrite <- !Hobj.
  apply solve_maximal; [done..|]. by apply Hp.
Qed.

End Exact.

(** ** What is left to the solver *)

(** C2, as stated, fails.  With a budget of minus one hour and one job of
    three hours the run returns a result, and its chosen jobs are not
    within the bound on hours.  And with a budget of three hours and one
    job of 3.000001 hours, a solver that accepts a constraint missed by a
    hundred-thousandth reports [Optimal], and the run returns that job. *)
Lemma negative_budget_violated :
  (∃ r, optimize_jobs enumerate_solve one_job negative_hours_cfg None None None
          = Ok r
        ∧ ¬ sum_over hours (chosen_jobs r) ≤ max_hours negative_hours_cfg)
  ∧ (∃ r, optimize_jobs (tolerant_solve (rat 1 100000)) heavy_job
            three_hours_cfg None None None = Ok r
          ∧ status r = "Optimal"
          ∧ chosen_jobs r = heavy_job
          ∧ ¬ sum_over hours (chosen_jobs r) ≤ max_hours three_hours_cfg).
Proof.
  split.
  - eexists. split; [vm_compute; reflexivity|]. compute_done.
  - eexists. split; [vm_compute; reflexivity|]. simpl.
    split; [done|]. split; [done|]. compute_done.
Qed.

(** The same with any solver at all: no selection of that job is within
    the bound. *)
Lemma negative_budget_violated_any solve :
  ∃ r, optimize_jobs solve one_job negative_hours_cfg None None None = Ok r
       ∧ ¬ sum_over hours (chosen_jobs r) ≤ max_hours negative_hours_cfg.
Proof.
  destruct (optimize_jobs_run solve one_job negative_hours_cfg None None None)
    as (p & _ & _ & _ & Hrun); [by left|].
  eexists. split; [done|]. simpl. unfold selection, one_job.
  rewrite filter_cons.
  destruct (decide _); rewrite filter_nil; compute_done.
Qed.

(** C2, amended. The constraints a run hands to the solver are the bound
    on hours, the bound on pallets and, for each optional bound that is
    configured, the bound on deadhead miles and on loaded plus deadhead
    miles; an absent optional bound adds no constraint, and with no
    candidate left there is no constraint at all.  The chosen jobs of
    a returned result are the candidates whose variable the solver left
    above one half, read whatever the status: they are within every bound
    in force exactly when the solver's values meet the constraints of the
    problem, and outside some bound when no values can. *)
Theorem chosen_jobs_within_bounds solve jobs cfg md mt mp r :
  optimize_jobs solve jobs cfg md mt mp = Ok r →
  ∃ p,
    build_problem (compute_profits jobs cfg)
      (make_variables (candidates jobs cfg mp)) (candidates jobs cfg mp)
      cfg md mt = Ok p
    ∧ (candidates jobs cfg mp ≠ [] →
       p = problem_of (compute_profits jobs cfg) (candidates jobs cfg mp)
             cfg md mt)
    ∧ (candidates jobs cfg mp = [] →
       p = {| objective := []; constraints := [] |})
    ∧ chosen_jobs r
        = selection (selected (solve p).2) (candidates jobs cfg mp)
    ∧ (∀ a, lp_feasible p a
            ↔ satisfies_bounds cfg md mt
                (selection a (candidates jobs cfg mp)))
    ∧ (lp_feasible p (selected (solve p).2)
       ↔ sum_over hours (chosen_jobs r) ≤ max_hours cfg
         ∧ sum_over pallets (chosen_jobs r) ≤ max_pallets cfg
         ∧ (∀ bound, md = Some bound →
              sum_over deadhead_miles (chosen_jobs r) ≤ bound)
         ∧ (∀ bound, mt = Some bound →
              sum_over (λ job, loaded_miles job + deadhead_miles job)
                (chosen_jobs r) ≤ bound))
    ∧ ((∀ a, ¬ lp_feasible p a) →
       ¬ satisfies_bounds cfg md mt (chosen_jobs r)).
Proof.
  intros Hr.
  destruct (optimize_jobs_Ok_problem _ _ _ _ _ _ _ Hr)
    as (p & Hp & Hne & Hnil & _ & Hfeas & _ & ->).
  exists p. simpl. do 5 (split; [done|]). split.
  - rewrite Hfeas. unfold satisfies_bounds. by rewrite !within_bound.
  - intros Hnone Hsat. by apply (Hnone (selected (solve p).2)), Hfeas.
Qed.

Lemma chosen_jobs_within_bounds_witness :
  ∃ r, optimize_jobs enumerate_solve demo_jobs demo_cfg
         (Some (rat 0 1)) (Some (rat 300 1)) None = Ok r
       ∧ sum_over hours (chosen_jobs r) ≤ rat 11 1
       ∧ sum_over pallets (chosen_jobs r) ≤ rat 6 1
       ∧ sum_over deadhead_miles (chosen_jobs r) ≤ rat 0 1
       ∧ sum_over (λ job, loaded_miles job + deadhead_miles job)
           (chosen_jobs r) ≤ rat 300 1.
Proof.
  destruct (proj2 (optimize_jobs_Ok_iff enumerate_solve demo_jobs demo_cfg
                     (Some (rat 0 1)) (Some (rat 300 1)) None))
    as [r Hr]; [right; compute_done|].
  destruct (chosen_jobs_within_bounds enumerate_solve demo_jobs demo_cfg
              (Some (rat 0 1)) (Some (rat 300 1)) None r Hr)
    as (p & _ & _ & _ & _ & Hfeas & Hiff & _).
  assert (lp_feasible p (λ _, false)) as Hnone.
  { apply Hfeas. rewrite selection_none. compute_done. }
  assert ((enumerate_solve p).1 = LpStatusOptimal) as Hst.
  { exact (solve_complete _ enumerate_solve_exact p _ Hnone). }
  destruct (proj1 Hiff (solve_feasible _ enumerate_solve_exact p Hst))
    as (Hh & Hp & Hd & Ht).
  exists r. split; [exact Hr|]. split; [exact Hh|]. split; [exact Hp|].
  split; [exact (Hd _ eq_refl)|exact (Ht _ eq_refl)].
Defined.

(** C1, as stated, fails three times.  On a list in which two jobs share
    an id the profit mapping keeps the profit of the second job, a loss,
    for both, so nothing is chosen and the total profit is [0], while the
    first job alone is within the bounds and earns 541.  Where no sub-list
    is within the bounds a result is returned, and there is no maximum for
    its total profit to equal.  And for one job that earns a billionth, a
    solver that keeps what it has unless it can gain more than a millionth
    reports [Optimal] and leaves the job out: the chosen jobs are within
    the bounds, and their total profit is [0], below the optimum. *)
Lemma duplicate_ids_suboptimal :
  (length duplicate_jobs ≤ 15)%nat
  ∧ (∃ r, optimize_jobs enumerate_solve duplicate_jobs demo_cfg
            None None None = Ok r
          ∧ status r = "Optimal"
          ∧ total_profit r = 0
          ∧ exhaustive_optimum demo_cfg None None
              (candidates duplicate_jobs demo_cfg None) = Some (rat 541 1))
  ∧ (∃ r, optimize_jobs enumerate_solve one_job negative_hours_cfg
            None None None = Ok r
          ∧ exhaustive_optimum negative_hours_cfg None None
              (candidates one_job negative_hours_cfg None) = None)
  ∧ (NoDup (id <$> marginal_job)
     ∧ ∃ r, optimize_jobs (tolerant_solve (rat 1 1000000)) marginal_job
              demo_cfg None None None = Ok r
            ∧ status r = "Optimal"
            ∧ satisfies_bounds demo_cfg None None (chosen_jobs r)
            ∧ total_profit r = 0
            ∧ exhaustive_optimum demo_cfg None None
                (candidates marginal_job demo_cfg None)
              = Some (rat 1 1000000000)).
Proof.
  split; [simpl; lia|]. split; [|split].
  - eexists. split; [vm_compute; reflexivity|]. simpl.
    split; [done|]. split; compute_done.
  - eexists. split; [vm_compute; reflexivity|]. compute_done.
  - split; [compute_done|].
    eexists. split; [vm_compute; reflexivity|]. simpl.
    split; [done|]. split; [compute_done|]. split; compute_done.
Qed.

(** C1, amended. For jobs with distinct ids, a run that returns has handed
    the solver this problem: its assignments select the sub-lists of the
    candidates, every sub-list by some assignment; an assignment meets the
    constraints exactly when its sub-list is within the bounds, and its
    objective value is the total of the computed profits of its sub-list.
    The result is read from the values the solver left, unchecked: its
    total profit is the total of the computed profits of the chosen jobs.
    So the chosen jobs are within the bounds, and their total profit is the
    greatest total over the sub-lists of the candidates within the bounds
    as found by enumeration, exactly when the solver's values are an
    optimal solution of the problem. *)
Theorem optimize_jobs_optimal solve jobs cfg md mt mp r :
  NoDup (id <$> jobs) →
  optimize_jobs solve jobs cfg md mt mp = Ok r →
  ∃ p,
    build_problem (compute_profits jobs cfg)
      (make_variables (candidates jobs cfg mp)) (candidates jobs cfg mp)
      cfg md mt = Ok p
    ∧ chosen_jobs r
        = selection (selected (solve p).2) (candidates jobs cfg mp)
    ∧ total_profit r
        = sum_over (λ job, compute_job_profit job cfg) (chosen_jobs r)
    ∧ (∀ a, selection a (candidates jobs cfg mp)
              `sublist_of` candidates jobs cfg mp
            ∧ (lp_feasible p a
               ↔ satisfies_bounds cfg md mt
                   (selection a (candidates jobs cfg mp)))
            ∧ expr_value (objective p) a
              = sum_over (λ job, compute_job_profit job cfg)
                  (selection a (candidates jobs cfg mp)))
    ∧ (∀ sel, sel `sublist_of` candidates jobs cfg mp →
              selection (picks (var_of <$> sel)) (candidates jobs cfg mp)
              = sel)
    ∧ (lp_feasible p (selected (solve p).2)
       ∧ (∀ a, lp_feasible p a →
               expr_value (objective p) a
                 ≤ expr_value (objective p) (selected (solve p).2))
       ↔ satisfies_bounds cfg md mt (chosen_jobs r)
         ∧ exhaustive_optimum cfg md mt (candidates jobs cfg mp)
           = Some (total_profit r)).
Proof.
  intros Hnd Hr.
  destruct (optimize_jobs_Ok_problem _ _ _ _ _ _ _ Hr)
    as (p & Hp & _ & _ & _ & Hfeas & Hobj & ->).
  simpl.
  assert (candidates jobs cfg mp `sublist_of` jobs) as Hcand
    by apply eligible_sublist.
  assert (NoDup (id <$> candidates jobs cfg mp)) as Hnd'.
  { apply (sublist_NoDup _ (id <$> jobs)); [done|by apply fmap_sublist]. }
  assert (∀ sel, sel `sublist_of` candidates jobs cfg mp →
            sum_over (entry (compute_profits jobs cfg)) sel
              = sum_over (λ job, compute_job_profit job cfg) sel) as Hentry.
  { intros sel Hsub. apply sum_over_entry_NoDup; [done|].
    apply sublist_subseteq. by etrans. }
  assert (∀ a, expr_value (objective p) a
               = sum_over (λ job, compute_job_profit job cfg)
                   (selection a (candidates jobs cfg mp))) as Hobj'.
  { intros a. rewrite Hobj. apply Hentry, selection_sublist. }
  exists p. split; [done|]. split; [done|].
  split; [apply Hentry, selection_sublist|].
  split.
  { intros a. split; [apply selection_sublist|]. split; [apply Hfeas|apply Hobj']. }
  split; [intros sel Hsub; by apply selection_picks|].
  rewrite Hentry by apply selection_sublist. split.
  - intros [Hf Hmax]. split; [by apply Hfeas|].
    apply exhaustive_optimum_greatest; [apply selection_sublist|by apply Hfeas|].
    intros sel Hsel Hsat.
    rewrite <- (selection_picks (candidates jobs cfg mp) sel) at 1 by done.
    rewrite <- !Hobj'. apply Hmax, Hfeas. by rewrite selection_picks.
  - intros [Hsat Hopt]. split; [by apply Hfeas|].
    apply exhaustive_optimum_Some in Hopt as [_ Hmax].
    intros a Ha. rewrite !Hobj'.
    apply Hmax; [apply selection_sublist|by apply Hfeas].
Qed.

Lemma optimize_jobs_optimal_witness :
  NoDup (id <$> demo_jobs)
  ∧ (length demo_jobs ≤ 15)%nat
  ∧ ∃ r, optimize_jobs enumerate_solve demo_jobs demo_cfg None None None
           = Ok r
         ∧ satisfies_bounds demo_cfg None None (chosen_jobs r)
         ∧ exhaustive_optimum demo_cfg None None
             (candidates demo_jobs demo_cfg None) = Some (total_profit r).
Proof.
  assert (NoDup (id <$> demo_jobs)) as Hnd by compute_done.
  split; [exact Hnd|]. split; [simpl; lia|].
  destruct (proj2 (optimize_jobs_Ok_iff enumerate_solve demo_jobs demo_cfg
                     None None None))
    as [r Hr]; [right; compute_done|].
  destruct (optimize_jobs_optimal enumerate_solve demo_jobs demo_cfg None
              None None r Hnd Hr)
    as (p & _ & _ & _ & Hsel & _ & Hiff).
  assert (lp_feasible p (λ _, false)) as Hnone.
  { apply (Hsel (λ _, false)). rewrite selection_none. compute_done. }
  assert ((enumerate_solve p).1 = LpStatusOptimal) as Hst.
  { exact (solve_complete _ enumerate_solve_exact p _ Hnone). }
  destruct (proj1 Hiff) as [Hsat Hopt].
  { split; [exact (solve_feasible _ enumerate_solve_exact p Hst)|].
    intros a Ha. exact (solve_maximal _ enumerate_solve_exact p a Hst Ha). }
  exists r. split; [exact Hr|]. split; [exact Hsat|exact Hopt].
Defined.

(** The same total with every exact solver: choosing the shared variable
    costs 190, so it is left out. *)
Lemma duplicate_ids_suboptimal_any solve :
  exact_solver solve →
  ∃ r, optimize_jobs solve duplicate_jobs demo_cfg None None None = Ok r
       ∧ status r = "Optimal"
       ∧ chosen_jobs r = []
       ∧ total_profit r = 0.
Proof.
  intros Hex.
  destruct (feasible_run solve Hex duplicate_jobs demo_cfg None None None)
    as (r & a & Hr & Hst & Hch & _ & Htot & Hmax).
  { apply empty_feasible_selection. compute_done. }
  exists r. split; [done|]. split; [done|].
  specialize (Hmax (λ _, false)). rewrite Htot, Hch in *.
  assert (selection (λ _, false) (candidates duplicate_jobs demo_cfg None) = [])
    as Hnone by done.
  rewrite Hnone in Hmax. clear Hnone.
  cut (selection a (candidates duplicate_jobs demo_cfg None) = []).
  { intros ->. done. }
  revert Hmax. unfold selection, candidates, eligible, duplicate_jobs.
  rewrite !filter_cons, filter_nil.
  change (var_of (mk_job "1" _ _ _ _ _)) with "x_1".
  destruct (a "x_1"); simpl; [|done].
  intros Hmax. exfalso. revert Hmax.
  apply (bool_decide_unpack (¬ _)). vm_compute. exact I.
Qed.

(** ** The filter and the optimum *)

(** A selection of the filtered list is the selection of the whole list
    that leaves out the variables of the dropped jobs. *)
Lemma selection_restrict jobs cfg floor a :
  selection
    (λ v, a v && bool_decide (v ∈ var_of <$> candidates jobs cfg (Some floor)))
    jobs
  = selection a (candidates jobs cfg (Some floor)).
Proof.
  unfold selection, candidates. simpl.
  rewrite list_filter_filter. apply filter_ext_elem. intros job Hin.
  rewrite andb_True, bool_decide_spec.
  split; intros [Ha Hk]; (split; [done|]).
  - apply list_elem_of_fmap in Hk as (job' & Hv & Hin').
    apply list_elem_of_filter in Hin' as [Hfloor _].
    unfold entry in *. by rewrite (var_of_inj _ _ Hv).
  - apply list_elem_of_fmap. exists job. split; [done|].
    by apply list_elem_of_filter.
Qed.

Lemma max_of_is_Some l q : q ∈ l → is_Some (max_of l).
Proof.
  intros Hin. destruct (max_of l) eqn:Hl; [eauto|].
  apply max_of_None in Hl as ->. by apply elem_of_nil in Hin.
Qed.

Lemma exhaustive_optimum_sublist cfg md mt jobs1 jobs2 m1 :
  jobs1 `sublist_of` jobs2 →
  exhaustive_optimum cfg md mt jobs1 = Some m1 →
  ∃ m2, exhaustive_optimum cfg md mt jobs2 = Some m2 ∧ m1 ≤ m2.
Proof.
  intros Hsub [(sel & Hsel & Hsat & <-) _]%exhaustive_optimum_Some.
  assert (sel `sublist_of` jobs2) as Hsel2 by (by etrans).
  destruct (max_of_is_Some
    (sum_over (λ job, compute_job_profit job cfg) <$>
       filter (satisfies_bounds cfg md mt) (powerlist jobs2))
    (sum_over (λ job, compute_job_profit job cfg) sel)) as [m2 Hm2].
  { apply list_elem_of_fmap. exists sel. split; [done|].
    apply list_elem_of_filter. split; [done|]. by apply elem_of_powerlist. }
  exists m2. split; [done|].
  apply exhaustive_optimum_Some in Hm2 as [_ Hmax]. by apply Hmax.
Qed.

(** C8. Setting the floor never raises the optimum: the greatest total
    profit over the sub-lists of the filtered list within the bounds, when
    there is one, is at most the one over the sub-lists of the whole list;
    and with an exact solver, whenever some selection of the filtered list
    is within the bounds, the total profit returned with the floor is at
    most the total profit returned without it.  For one job earning 541 and
    a floor of 1000 it is strictly less. *)
Theorem filter_never_increases solve jobs cfg md mt floor :
  exact_solver solve →
  (∀ m1, exhaustive_optimum cfg md mt (candidates jobs cfg (Some floor))
           = Some m1 →
         ∃ m2, exhaustive_optimum cfg md mt (candidates jobs cfg None)
                 = Some m2
               ∧ m1 ≤ m2)
  ∧ (feasible_selection (candidates jobs cfg (Some floor)) cfg md mt →
     ∃ r1 r2,
       optimize_jobs solve jobs cfg md mt (Some floor) = Ok r1
       ∧ optimize_jobs solve jobs cfg md mt None = Ok r2
       ∧ total_profit r1 ≤ total_profit r2)
  ∧ (∃ r1 r2,
       optimize_jobs solve one_job demo_cfg None None (Some (rat 1000 1))
         = Ok r1
       ∧ optimize_jobs solve one_job demo_cfg None None None = Ok r2
       ∧ total_profit r1 < total_profit r2).
Proof.
  intros Hex. split; [|split].
  - intros m1. apply exhaustive_optimum_sublist, eligible_sublist.
  - intros Hfeas.
    destruct (feasible_run solve Hex jobs cfg md mt (Some floor) Hfeas)
      as (r1 & a1 & Hr1 & _ & Hch1 & Hsat1 & Htot1 & _).
    rewrite Hch1 in Hsat1, Htot1.
    rewrite <- selection_restrict in Hsat1, Htot1.
    destruct (feasible_run solve Hex jobs cfg md mt None)
      as (r2 & a2 & Hr2 & _ & _ & _ & _ & Hmax2); [by eexists|].
    exists r1, r2. split; [done|]. split; [done|].
    rewrite Htot1. by apply Hmax2.
  - destruct (feasible_run solve Hex one_job demo_cfg None None
                (Some (rat 1000 1)))
      as (r1 & a1 & Hr1 & _ & Hch1 & _ & Htot1 & _).
    { apply empty_feasible_selection. compute_done. }
    destruct (feasible_run solve Hex one_job demo_cfg None None None)
      as (r2 & a2 & Hr2 & _ & _ & _ & _ & Hmax2).
    { apply empty_feasible_selection. compute_done. }
    exists r1, r2. split; [done|]. split; [done|].
    rewrite Htot1, Hch1.
    eapply Qclt_le_trans; [|apply (Hmax2 (λ _, true))]; compute_done.
Qed.

Lemma filter_never_increases_witness :
  exact_solver enumerate_solve
  ∧ feasible_selection (candidates demo_jobs demo_cfg (Some (rat 500 1)))
      demo_cfg None None
  ∧ ∃ r1 r2,
      optimize_jobs enumerate_solve demo_jobs demo_cfg None None
        (Some (rat 500 1)) = Ok r1
      ∧ optimize_jobs enumerate_solve demo_jobs demo_cfg None None None
        = Ok r2
      ∧ total_profit r1 ≤ total_profit r2.
Proof.
  assert (feasible_selection
            (candidates demo_jobs demo_cfg (Some (rat 500 1)))
            demo_cfg None None) as Hfeas
    by (apply empty_feasible_selection; compute_done).
  split; [exact enumerate_solve_exact|]. split; [exact Hfeas|].
  exact (proj1 (proj2 (filter_never_increases enumerate_solve demo_jobs
                         demo_cfg None None (rat 500 1)
                         enumerate_solve_exact)) Hfeas).
Defined.

(** ** Negative budgets and duplicate ids *)





(** C6, as stated, fails: a list in which two jobs share an id is not
    rejected.  The run returns a result, whose profit mapping holds one
    entry for the shared id, the profit of the second job. *)
Lemma duplicate_ids_not_rejected :
  ¬ NoDup (id <$> duplicate_jobs)
  ∧ ∃ r, optimize_jobs enumerate_solve duplicate_jobs demo_cfg None None None
           = Ok r
         ∧ all_profits r !! "1" = Some (rat (-95) 1).
Proof.
  split; [compute_done|]. eexists. split; [vm_compute; reflexivity|].
  compute_done.
Qed.

(** C6, amended. No run checks the ids.  A list in which a job shares its
    id with an earlier one is processed like any other: the run returns a
    result whenever no constraint is the constant [False], and the profit
    mapping holds, for a shared id, the profit of the last job with it. *)
Theorem duplicate_ids_accepted solve l1 job l2 cfg md mt mp :
  id job ∈ id <$> l1 →
  id job ∉ id <$> l2 →
  no_false_constraint (l1 ++ job :: l2) cfg md mt mp →
  ¬ NoDup (id <$> l1 ++ job :: l2)
  ∧ ∃ r, optimize_jobs solve (l1 ++ job :: l2) cfg md mt mp = Ok r
         ∧ all_profits r !! id job = Some (compute_job_profit job cfg).
Proof.
  intros Hdup Hlast Hpre. split.
  - rewrite fmap_app, fmap_cons. intros (_ & Hno & _)%NoDup_app.
    apply (Hno (id job) Hdup). by constructor.
  - destruct (optimize_jobs_run solve (l1 ++ job :: l2) cfg md mt mp Hpre)
      as (p & _ & _ & _ & Hrun).
    eexists. split; [done|]. simpl. by apply profits_last_wins.
Qed.

Lemma duplicate_ids_accepted_witness :
  ∃ r, optimize_jobs enumerate_solve duplicate_jobs demo_cfg None None None
         = Ok r
       ∧ all_profits r !! "1"
           = Some (compute_job_profit
                     (mk_job "1" 0 (rat 100 1) 0 (rat 1 1) (rat 1 1))
                     demo_cfg).
Proof.
  refine (proj2 (duplicate_ids_accepted enumerate_solve
            [mk_job "1" (rat 700 1) (rat 120 1) 0 (rat 3 1) (rat 2 1)]
            (mk_job "1" 0 (rat 100 1) 0 (rat 1 1) (rat 1 1)) []
            demo_cfg None None None _ _ _)).
  - compute_done.
  - compute_done.
  - right. compute_done.
Defined.


(** ** More on [optimize_jobs] *)

(** What a returned result is made of. *)
Lemma optimize_jobs_Ok_inv solve jobs cfg md mt mp r :
  optimize_jobs solve jobs cfg md mt mp = Ok r →
  ∃ a, chosen_jobs r = selection a (candidates jobs cfg mp)
       ∧ all_profits r = compute_profits jobs cfg
       ∧ total_profit r
           = sum_over (entry (compute_profits jobs cfg)) (chosen_jobs r)
       ∧ total_hours r = sum_over hours (chosen_jobs r)
       ∧ total_pallets r = sum_over pallets (chosen_jobs r).
Proof.
  intros Hr.
  assert (no_false_constraint jobs cfg md mt mp) as Hpre
    by (apply (optimize_jobs_Ok_iff solve); eauto).
  destruct (optimize_jobs_run solve jobs cfg md mt mp Hpre)
    as (p & _ & _ & _ & Hrun).
  rewrite Hrun in Hr. injection Hr as <-. by eexists.
Qed.

(** X1. A run never fails on a dictionary key: every look-up in the profit
    mapping and among the variables succeeds.  When the filter leaves no
    job and some bound in force is negative, it raises [TypeError]. *)
Theorem optimize_jobs_outcomes solve jobs cfg md mt mp :
  (∀ key, optimize_jobs solve jobs cfg md mt mp ≠ Raise (KeyError key))
  ∧ (candidates jobs cfg mp = [] → ¬ satisfies_bounds cfg md mt [] →
     ∃ msg, optimize_jobs solve jobs cfg md mt mp = Raise (TypeError msg)).
Proof.
  split.
  - intros key Hkey.
    destruct (decide (no_false_constraint jobs cfg md mt mp)) as [Hpre|Hno].
    + apply (optimize_jobs_Ok_iff solve) in Hpre as [r Hr]. congruence.
    + destruct (optimize_jobs_raises solve jobs cfg md mt mp) as [msg Hmsg].
      * destruct (candidates jobs cfg mp) eqn:Hc; [done|].
        destruct Hno. left. by rewrite Hc.
      * intros Hb. apply Hno. by right.
      * congruence.
  - apply optimize_jobs_raises.
Qed.

Lemma optimize_jobs_outcomes_witness :
  ∃ msg, optimize_jobs enumerate_solve demo_jobs negative_hours_cfg None None
           (Some (rat 1000 1)) = Raise (TypeError msg).
Proof.
  refine (proj2 (optimize_jobs_outcomes enumerate_solve demo_jobs
                   negative_hours_cfg None None (Some (rat 1000 1))) _ _).
  - vm_compute. reflexivity.
  - compute_done.
Defined.

Lemma compute_profits_lookup jobs cfg k v :
  compute_profits jobs cfg !! k = Some v
  ↔ ∃ l1 job l2, jobs = l1 ++ job :: l2 ∧ id job = k ∧ (k ∉ id <$> l2)
                 ∧ v = compute_job_profit job cfg.
Proof.
  split.
  - intros Hk. destruct (decide (k ∈ id <$> jobs)) as [Hin|Hout].
    + destruct (last_with_key id jobs k Hin) as (l1 & job & l2 & -> & <- & Hl2).
      rewrite profits_last_wins in Hk by done.
      exists l1, job, l2. by simplify_eq.
    + unfold compute_profits in Hk.
      rewrite (fill_not_elem id (λ job, compute_job_profit job cfg)) in Hk
        by done.
      by rewrite lookup_empty in Hk.
  - intros (l1 & job & l2 & -> & <- & Hl2 & ->). by apply profits_last_wins.
Qed.

(** X2. The profit mapping of a returned result has an entry exactly for
    the ids of the input jobs, whatever the filter and the solver did, and
    the entry of an id is the computed profit of the last input job that
    carries it. *)
Theorem all_profits_entries solve jobs cfg md mt mp r :
  optimize_jobs solve jobs cfg md mt mp = Ok r →
  (∀ k, is_Some (all_profits r !! k) ↔ k ∈ id <$> jobs)
  ∧ (∀ k v, all_profits r !! k = Some v
            ↔ ∃ l1 job l2, jobs = l1 ++ job :: l2 ∧ id job = k
                           ∧ (k ∉ id <$> l2)
                           ∧ v = compute_job_profit job cfg).
Proof.
  intros (a & _ & -> & _)%optimize_jobs_Ok_inv. split.
  - intros k. split.
    + intros [v (l1 & job & l2 & -> & <- & _)%compute_profits_lookup].
      apply list_elem_of_fmap. exists job. split; [done|].
      apply elem_of_app. right. by constructor.
    + intros (job & -> & Hin)%list_elem_of_fmap. by apply profits_elem.
  - apply compute_profits_lookup.
Qed.

Lemma all_profits_entries_witness :
  ∃ r, optimize_jobs enumerate_solve duplicate_jobs demo_cfg None None None
         = Ok r
       ∧ (∀ k, is_Some (all_profits r !! k) ↔ k ∈ id <$> duplicate_jobs).
Proof.
  destruct (proj2 (optimize_jobs_Ok_iff enumerate_solve duplicate_jobs
                     demo_cfg None None None)) as [r Hr].
  { right. compute_done. }
  exists r. split; [exact Hr|].
  exact (proj1 (all_profits_entries enumerate_solve duplicate_jobs demo_cfg
                  None None None r Hr)).
Defined.

(** X3. Two candidates with the same id stand or fall together: whatever
    the solver, a returned result chooses both or neither. *)
Theorem same_id_chosen_together solve jobs cfg md mt mp r job1 job2 :
  optimize_jobs solve jobs cfg md mt mp = Ok r →
  job1 ∈ candidates jobs cfg mp →
  job2 ∈ candidates jobs cfg mp →
  id job1 = id job2 →
  job1 ∈ chosen_jobs r ↔ job2 ∈ chosen_jobs r.
Proof.
  intros (a & -> & _)%optimize_jobs_Ok_inv Hin1 Hin2 Hid.
  unfold selection. rewrite !list_elem_of_filter.
  unfold var_of. rewrite Hid. tauto.
Qed.

Lemma same_id_chosen_together_witness :
  ∃ r job1 job2,
    optimize_jobs enumerate_solve duplicate_jobs demo_cfg None None None
      = Ok r
    ∧ job1 ≠ job2
    ∧ (job1 ∈ chosen_jobs r ↔ job2 ∈ chosen_jobs r).
Proof.
  destruct (proj2 (optimize_jobs_Ok_iff enumerate_solve duplicate_jobs
                     demo_cfg None None None)) as [r Hr].
  { right. compute_done. }
  exists r, (mk_job "1" (rat 700 1) (rat 120 1) 0 (rat 3 1) (rat 2 1)),
    (mk_job "1" 0 (rat 100 1) 0 (rat 1 1) (rat 1 1)).
  split; [exact Hr|]. split; [discriminate|].
  apply (same_id_chosen_together enumerate_solve duplicate_jobs demo_cfg
           None None None r _ _ Hr).
  - apply list_elem_of_here.
  - apply list_elem_of_further, list_elem_of_here.
  - reflexivity.
Defined.

(** X4. With an exact solver, when every bound in force is at least [0]
    the run reports [Optimal] and a total profit that is not negative:
    choosing nothing is allowed and earns [0]. *)
Theorem total_profit_nonnegative solve jobs cfg md mt mp :
  exact_solver solve →
  satisfies_bounds cfg md mt [] →
  ∃ r, optimize_jobs solve jobs cfg md mt mp = Ok r
       ∧ status r = "Optimal"
       ∧ 0 ≤ total_profit r.
Proof.
  intros Hex Hb.
  destruct (feasible_run solve Hex jobs cfg md mt mp)
    as (r & a & Hr & Hst & _ & _ & _ & Hmax).
  { by apply empty_feasible_selection. }
  exists r. split; [done|]. split; [done|].
  specialize (Hmax (λ _, false)). rewrite selection_none in Hmax.
  by apply Hmax.
Qed.

Lemma total_profit_nonnegative_witness :
  exact_solver enumerate_solve
  ∧ satisfies_bounds demo_cfg None None []
  ∧ ∃ r, optimize_jobs enumerate_solve duplicate_jobs demo_cfg None None None
           = Ok r
         ∧ status r = "Optimal"
         ∧ 0 ≤ total_profit r.
Proof.
  assert (satisfies_bounds demo_cfg None None []) as Hb by compute_done.
  split; [exact enumerate_solve_exact|]. split; [exact Hb|].
  exact (total_profit_nonnegative enumerate_solve duplicate_jobs demo_cfg
           None None None enumerate_solve_exact Hb).
Defined.

(** X8. When no job passes the floor and every bound in force is at least
    [0], the run returns the empty plan: nothing chosen and all totals [0],
    whatever the solver; with an exact solver its status is [Optimal]. *)
Theorem nothing_left_nothing_chosen solve jobs cfg md mt floor :
  (∀ job, job ∈ jobs → entry (compute_profits jobs cfg) job < floor) →
  satisfies_bounds cfg md mt [] →
  ∃ r, optimize_jobs solve jobs cfg md mt (Some floor) = Ok r
       ∧ chosen_jobs r = []
       ∧ total_profit r = 0 ∧ total_hours r = 0 ∧ total_pallets r = 0
       ∧ (exact_solver solve → status r = "Optimal").
Proof.
  intros Hlow Hb.
  assert (candidates jobs cfg (Some floor) = []) as Hnil.
  { unfold candidates. simpl. apply elem_of_nil_inv.
    intros job [Hfloor Hin]%list_elem_of_filter.
    by apply (Qclt_not_le _ _ (Hlow job Hin)). }
  destruct (optimize_jobs_run solve jobs cfg md mt (Some floor))
    as (p & _ & Hp & _ & Hrun); [by right|].
  unfold candidates in Hnil. rewrite Hnil in Hrun, Hp.
  eexists. split; [exact Hrun|]. simpl. do 4 (split; [done|]).
  intros Hex. rewrite (solve_complete _ Hex p (λ _, false)); [done|].
  by apply Hp.
Qed.

Lemma nothing_left_nothing_chosen_witness :
  ∃ r, optimize_jobs enumerate_solve demo_jobs demo_cfg None None
         (Some (rat 1000 1)) = Ok r
       ∧ chosen_jobs r = []
       ∧ total_profit r = 0 ∧ total_hours r = 0 ∧ total_pallets r = 0
       ∧ (exact_solver enumerate_solve → status r = "Optimal").
Proof.
  apply (nothing_left_nothing_chosen enumerate_solve demo_jobs demo_cfg
           None None (rat 1000 1)).
  - apply Forall_forall. compute_done.
  - compute_done.
Defined.

(** ** Sums over parts of a list *)

Lemma sum_over_split f (P : Job → Prop) `{∀ job, Decision (P job)} sel :
  sum_over f sel
    = sum_over f (filter P sel) + sum_over f (filter (λ job, ¬ P job) sel).
Proof.
  induction sel as [|job sel IH]; [by rewrite Qcplus_0_l|].
  rewrite !filter_cons. simpl. rewrite IH.
  destruct (decide (P job)) as [HP|HP].
  - rewrite decide_False by tauto. simpl. ring.
  - rewrite decide_True by done. simpl. ring.
Qed.

Lemma sum_over_filter_le f (P : Job → Prop) `{∀ job, Decision (P job)} sel :
  (∀ job, job ∈ sel → 0 ≤ f job) →
  sum_over f (filter P sel) ≤ sum_over f sel.
Proof.
  intros Hf. rewrite (sum_over_split f P sel).
  rewrite <- (Qcplus_0_r (sum_over f (filter P sel))) at 1.
  apply Qcplus_le_mono_l, sum_over_nonneg.
  intros job [_ Hin]%list_elem_of_filter. by apply Hf.
Qed.

Lemma sum_over_negative f sel :
  sel ≠ [] → (∀ job, job ∈ sel → f job < 0) → sum_over f sel < 0.
Proof.
  induction sel as [|job sel IH]; intros Hne Hf; [done|]. simpl.
  destruct sel as [|job' sel].
  - simpl. rewrite Qcplus_0_r. apply Hf. by constructor.
  - apply Qclt_trans with (0 + sum_over f (job' :: sel)).
    + apply Qcplus_lt_mono_r. apply Hf. by constructor.
    + rewrite Qcplus_0_l. apply IH; [done|].
      intros; apply Hf. by constructor.
Qed.

Lemma satisfies_bounds_filter cfg md mt (P : Job → Prop)
    `{∀ job, Decision (P job)} sel :
  (∀ job, job ∈ sel → nonnegative_fields job) →
  satisfies_bounds cfg md mt sel →
  satisfies_bounds cfg md mt (filter P sel).
Proof.
  intros Hnn (Hh & Hp & Hd & Ht). repeat split.
  - etrans; [apply sum_over_filter_le|done].
    intros job Hin. apply (Hnn job Hin).
  - etrans; [apply sum_over_filter_le|done].
    intros job Hin. apply (Hnn job Hin).
  - destruct md as [b|]; [|done]. simpl in *.
    etrans; [apply sum_over_filter_le|done].
    intros job Hin. apply (Hnn job Hin).
  - destruct mt as [b|]; [|done]. simpl in *.
    etrans; [apply sum_over_filter_le|done].
    intros job Hin. destruct (Hnn job Hin) as (_ & _ & ? & ?).
    by apply Qcplus_nonneg_nonneg.
Qed.

Lemma entry_same_var profits job1 job2 :
  var_of job1 = var_of job2 → entry profits job1 = entry profits job2.
Proof. intros Hv%var_of_inj. unfold entry. by rewrite Hv. Qed.

(** X5. With an exact solver, when the candidates have no negative hours,
    pallets or miles and some selection is within the bounds, no job whose
    entry in the profit mapping is negative is chosen; with distinct ids,
    no job whose computed profit is negative. *)
Theorem no_losing_job_chosen solve jobs cfg md mt mp :
  exact_solver solve →
  feasible_selection (candidates jobs cfg mp) cfg md mt →
  (∀ job, job ∈ candidates jobs cfg mp → nonnegative_fields job) →
  ∃ r, optimize_jobs solve jobs cfg md mt mp = Ok r
       ∧ status r = "Optimal"
       ∧ ∀ job, job ∈ chosen_jobs r →
           0 ≤ entry (all_profits r) job
           ∧ (NoDup (id <$> jobs) → 0 ≤ compute_job_profit job cfg).
Proof.
  intros Hex Hfeas Hnn.
  destruct (feasible_run solve Hex jobs cfg md mt mp Hfeas)
    as (r & a & Hr & Hst & Hch & Hsat & Htot & Hmax).
  destruct (optimize_jobs_Ok_inv _ _ _ _ _ _ _ Hr) as (_ & _ & Hall & _).
  exists r. split; [done|]. split; [done|]. intros job Hin.
  rewrite Hall.
  assert (job ∈ jobs) as Hjob.
  { rewrite Hch in Hin. eapply elem_of_sublist in Hin;
      [|apply selection_sublist]. by eapply eligible_elem. }
  cut (0 ≤ entry (compute_profits jobs cfg) job).
  { intros Hle. split; [done|]. intros Hnd. by rewrite <- (entry_NoDup jobs). }
  apply Qcnot_lt_le. intros Hneg.
  set (b := λ v, a v && negb (bool_decide (v = var_of job))).
  assert (selection b (candidates jobs cfg mp)
          = filter (λ j, var_of j ≠ var_of job) (chosen_jobs r)) as Hb.
  { rewrite Hch. unfold selection. rewrite list_filter_filter.
    apply filter_ext_elem. intros j _. unfold b.
    rewrite andb_True, negb_True, bool_decide_spec. tauto. }
  assert (∀ j, j ∈ chosen_jobs r → nonnegative_fields j) as Hnn'.
  { intros j Hj. apply Hnn. rewrite Hch in Hj.
    eapply elem_of_sublist; [done|apply selection_sublist]. }
  specialize (Hmax b). rewrite Hb in Hmax.
  specialize (Hmax (satisfies_bounds_filter _ _ _ _ _ Hnn' Hsat)).
  rewrite Htot in Hmax.
  rewrite (sum_over_split _ (λ j, var_of j ≠ var_of job) (chosen_jobs r))
    in Hmax.
  rewrite <- (Qcplus_0_r (sum_over _ (filter _ (chosen_jobs r)))) in Hmax at 1.
  apply Qcplus_le_mono_l in Hmax.
  apply (Qcle_not_lt _ _ Hmax), sum_over_negative.
  - intros Hnil. apply (filter_nil_not_elem_of _ _ job) in Hnil; [done|].
    by intros HP.
  - intros j [Hv _]%list_elem_of_filter.
    rewrite (entry_same_var _ j job); [done|].
    by destruct (decide (var_of j = var_of job)).
Qed.

Lemma no_losing_job_chosen_witness :
  exact_solver enumerate_solve
  ∧ NoDup (id <$> demo_jobs)
  ∧ ∃ r, optimize_jobs enumerate_solve demo_jobs demo_cfg None None None
           = Ok r
         ∧ ∀ job, job ∈ chosen_jobs r → 0 ≤ compute_job_profit job demo_cfg.
Proof.
  assert (NoDup (id <$> demo_jobs)) as Hnd by compute_done.
  split; [exact enumerate_solve_exact|]. split; [exact Hnd|].
  destruct (no_losing_job_chosen enumerate_solve demo_jobs demo_cfg None
              None None enumerate_solve_exact) as (r & Hr & _ & Hchosen).
  - apply empty_feasible_selection. compute_done.
  - apply Forall_forall. compute_done.
  - exists r. split; [exact Hr|]. intros job Hin.
    exact (proj2 (Hchosen job Hin) Hnd).
Defined.

(** ** Changing the bounds or the floor *)

Lemma compute_profits_costs jobs cfg1 cfg2 :
  fuel_cost_per_mile cfg1 = fuel_cost_per_mile cfg2 →
  driver_cost_per_hour cfg1 = driver_cost_per_hour cfg2 →
  compute_profits jobs cfg1 = compute_profits jobs cfg2.
Proof.
  intros Hfuel Hdriver. unfold compute_profits.
  generalize (∅ : gmap string Qc).
  induction jobs as [|job jobs IH]; intros m; [done|]. simpl.
  rewrite IH. unfold compute_job_profit. by rewrite Hfuel, Hdriver.
Qed.

Lemma satisfies_bounds_tighter cfg1 cfg2 md1 md2 mt1 mt2 sel :
  max_hours cfg1 ≤ max_hours cfg2 →
  max_pallets cfg1 ≤ max_pallets cfg2 →
  tighter md1 md2 → tighter mt1 mt2 →
  satisfies_bounds cfg1 md1 mt1 sel → satisfies_bounds cfg2 md2 mt2 sel.
Proof.
  intros Hh Hp Hd Ht (Hh1 & Hp1 & Hd1 & Ht1). repeat split.
  - by etrans.
  - by etrans.
  - destruct md2 as [b2|]; [|done]. destruct md1 as [b1|]; [|done].
    simpl in *. by etrans.
  - destruct mt2 as [b2|]; [|done]. destruct mt1 as [b1|]; [|done].
    simpl in *. by etrans.
Qed.

(** X6. With an exact solver, loosening the bounds never costs profit: when
    the cost rates are the same, every bound of the second run is at least
    that of the first (an absent bound being the loosest), and some
    selection is within the bounds of the first run, the total profit of
    the first run is at most that of the second. *)
Theorem tighter_bounds_never_gain solve jobs cfg1 cfg2 md1 md2 mt1 mt2 mp :
  exact_solver solve →
  fuel_cost_per_mile cfg1 = fuel_cost_per_mile cfg2 →
  driver_cost_per_hour cfg1 = driver_cost_per_hour cfg2 →
  max_hours cfg1 ≤ max_hours cfg2 →
  max_pallets cfg1 ≤ max_pallets cfg2 →
  tighter md1 md2 → tighter mt1 mt2 →
  feasible_selection (candidates jobs cfg1 mp) cfg1 md1 mt1 →
  ∃ r1 r2, optimize_jobs solve jobs cfg1 md1 mt1 mp = Ok r1
           ∧ optimize_jobs solve jobs cfg2 md2 mt2 mp = Ok r2
           ∧ total_profit r1 ≤ total_profit r2.
Proof.
  intros Hex Hfuel Hdriver Hh Hp Hd Ht Hfeas.
  assert (compute_profits jobs cfg1 = compute_profits jobs cfg2) as Hprof
    by by apply compute_profits_costs.
  assert (candidates jobs cfg1 mp = candidates jobs cfg2 mp) as Hcand
    by (unfold candidates; by rewrite Hprof).
  destruct (feasible_run solve Hex jobs cfg1 md1 mt1 mp Hfeas)
    as (r1 & a1 & Hr1 & _ & Hch1 & Hsat1 & Htot1 & _).
  assert (satisfies_bounds cfg2 md2 mt2
            (selection a1 (candidates jobs cfg2 mp))) as Hsat2.
  { rewrite <- Hcand, <- Hch1. by eapply satisfies_bounds_tighter. }
  destruct (feasible_run solve Hex jobs cfg2 md2 mt2 mp)
    as (r2 & a2 & Hr2 & _ & _ & _ & _ & Hmax2); [by eexists|].
  exists r1, r2. split; [done|]. split; [done|].
  rewrite Htot1, Hch1, Hprof, Hcand. by apply Hmax2.
Qed.

Lemma tighter_bounds_never_gain_witness :
  ∃ r1 r2,
    optimize_jobs enumerate_solve demo_jobs
      {| max_hours := rat 11 1; max_pallets := rat 3 1;
         fuel_cost_per_mile := rat 7 10; driver_cost_per_hour := rat 25 1 |}
      (Some (rat 50 1)) None None = Ok r1
    ∧ optimize_jobs enumerate_solve demo_jobs demo_cfg None None None = Ok r2
    ∧ total_profit r1 ≤ total_profit r2.
Proof.
  apply (tighter_bounds_never_gain enumerate_solve demo_jobs
           {| max_hours := rat 11 1; max_pallets := rat 3 1;
              fuel_cost_per_mile := rat 7 10;
              driver_cost_per_hour := rat 25 1 |}
           demo_cfg (Some (rat 50 1)) None None None None
           enumerate_solve_exact).
  - reflexivity.
  - reflexivity.
  - compute_done.
  - compute_done.
  - exact I.
  - exact I.
  - apply empty_feasible_selection. compute_done.
Defined.

(** A selection of the jobs kept by a higher floor is the selection, among
    the jobs kept by a lower floor, that leaves out the variables of the
    jobs dropped in between. *)
Lemma selection_restrict_floor jobs cfg floor1 floor2 a :
  floor1 ≤ floor2 →
  selection
    (λ v, a v
          && bool_decide (v ∈ var_of <$> candidates jobs cfg (Some floor2)))
    (candidates jobs cfg (Some floor1))
  = selection a (candidates jobs cfg (Some floor2)).
Proof.
  intros Hfloor. unfold selection, candidates. simpl.
  rewrite !list_filter_filter. apply filter_ext_elem. intros job Hin.
  rewrite andb_True, bool_decide_spec.
  split.
  - intros [[Ha Hk] _]. split; [done|].
    apply list_elem_of_fmap in Hk as (job' & Hv & Hin').
    apply list_elem_of_filter in Hin' as [Hfloor' _].
    by rewrite (entry_same_var _ job job').
  - intros [Ha Hk]. split; [|by etrans]. split; [done|].
    apply list_elem_of_fmap. exists job. split; [done|].
    by apply list_elem_of_filter.
Qed.

(** X9. With an exact solver, raising the floor never adds profit: when
    some selection of the jobs kept by the higher floor is within the
    bounds, the total profit with the higher floor is at most the total
    profit with the lower one. *)
Theorem higher_floor_never_gains solve jobs cfg md mt floor1 floor2 :
  exact_solver solve →
  floor1 ≤ floor2 →
  feasible_selection (candidates jobs cfg (Some floor2)) cfg md mt →
  ∃ r1 r2, optimize_jobs solve jobs cfg md mt (Some floor1) = Ok r1
           ∧ optimize_jobs solve jobs cfg md mt (Some floor2) = Ok r2
           ∧ total_profit r2 ≤ total_profit r1.
Proof.
  intros Hex Hfloor Hfeas.
  destruct (feasible_run solve Hex jobs cfg md mt (Some floor2) Hfeas)
    as (r2 & a2 & Hr2 & _ & Hch2 & Hsat2 & Htot2 & _).
  rewrite Hch2 in Hsat2, Htot2.
  rewrite <- (selection_restrict_floor jobs cfg floor1 floor2 a2 Hfloor)
    in Hsat2, Htot2.
  destruct (feasible_run solve Hex jobs cfg md mt (Some floor1))
    as (r1 & a1 & Hr1 & _ & _ & _ & _ & Hmax1); [by eexists|].
  exists r1, r2. split; [done|]. split; [done|].
  rewrite Htot2. by apply Hmax1.
Qed.

Lemma higher_floor_never_gains_witness :
  ∃ r1 r2,
    optimize_jobs enumerate_solve demo_jobs demo_cfg None None
      (Some (rat 400 1)) = Ok r1
    ∧ optimize_jobs enumerate_solve demo_jobs demo_cfg None None
        (Some (rat 520 1)) = Ok r2
    ∧ total_profit r2 ≤ total_profit r1.
Proof.
  apply (higher_floor_never_gains enumerate_solve demo_jobs demo_cfg None
           None (rat 400 1) (rat 520 1) enumerate_solve_exact).
  - compute_done.
  - apply empty_feasible_selection. compute_done.
Defined.

(** ** Loops that may raise *)

Lemma mapM_Returned {A B} (f : A → outcome B) l k :
  mapM f l = Returned k ↔ Forall2 (λ x y, f x = Returned y) l k.
Proof.
  revert k. induction l as [|x l IH]; intros k; simpl.
  - split; [intros [= <-]; constructor|by intros ->%Forall2_nil_inv_l].
  - split.
    + destruct (f x) as [y|e] eqn:Hx; [|done]. simpl.
      destruct (mapM f l) as [k'|e] eqn:Hl; [|done]. simpl.
      intros [= <-]. constructor; [done|]. by apply IH.
    + intros (y & k' & Hx & Hl & ->)%Forall2_cons_inv_l.
      rewrite Hx. simpl. apply IH in Hl. by rewrite Hl.
Qed.

(** The first element that fails decides the exception. *)
Lemma mapM_Raised {A B} (f : A → outcome B) l e :
  mapM f l = Raised e
  ↔ ∃ l1 x l2, l = l1 ++ x :: l2
               ∧ Forall (λ x, ∃ y, f x = Returned y) l1
               ∧ f x = Raised e.
Proof.
  revert e. induction l as [|x l IH]; intros e; simpl.
  - split; [done|]. intros (l1 & x & l2 & Hl & _). by destruct l1.
  - destruct (f x) as [y|e'] eqn:Hx; simpl.
    + destruct (mapM f l) as [k|e'] eqn:Hl; simpl.
      * split; [done|]. intros (l1 & x' & l2 & Heq & Hl1 & Hx').
        destruct l1 as [|x1 l1]; simplify_eq/=; [congruence|].
        apply Forall_cons in Hl1 as [_ Hl1].
        assert (Returned k = Raised e) as Habs; [|done].
        apply IH. by exists l1, x', l2.
      * split.
        -- intros [= <-]. destruct (proj1 (IH e') eq_refl)
             as (l1 & x' & l2 & -> & Hl1 & Hx').
           exists (x :: l1), x', l2. split; [done|]. split; [|done].
           constructor; eauto.
        -- intros (l1 & x' & l2 & Heq & Hl1 & Hx').
           destruct l1 as [|x1 l1]; simplify_eq/=; [congruence|].
           apply Forall_cons in Hl1 as [_ Hl1].
           apply IH. by exists l1, x', l2.
    + split.
      * intros [= <-]. exists [], x, l. split; [done|]. split; [constructor|done].
      * intros (l1 & x' & l2 & Heq & Hl1 & Hx').
        destruct l1 as [|x1 l1]; simplify_eq/=; [congruence|].
        apply Forall_cons in Hl1 as [[y Hy] _]. congruence.
Qed.

(** ** Saving the plan *)

Lemma foldl_sum_over f z (sel : list Job) :
  foldl (λ acc job, acc + f job) z sel = z + sum_over f sel.
Proof.
  revert z. induction sel as [|job sel IH]; intros z; simpl.
  - by rewrite Qcplus_0_r.
  - rewrite IH. ring.
Qed.

Lemma truediv_positive a b :
  0 < b → ∃ q, truediv a b = Returned q ∧ q * b = a.
Proof.
  intros Hb. assert (b ≠ 0) as Hne.
  { intros ->. by apply (Qclt_not_eq 0 0). }
  unfold truediv. rewrite bool_decide_eq_false_2 by done.
  eexists. split; [done|]. rewrite Qcmult_comm. by apply Qcmult_div_r.
Qed.

Lemma summary_metrics_total result :
  ∃ profit_per_hour profit_per_mile,
    summary_metrics result
      = Returned (sum_over (λ job, loaded_miles job + deadhead_miles job)
                    (chosen_jobs result),
                  profit_per_hour, profit_per_mile).
Proof.
  unfold summary_metrics. rewrite foldl_sum_over, Qcplus_0_l.
  assert (∀ d, ∃ q, (if bool_decide (0 < d)
                     then truediv (total_profit result) d
                     else Returned 0) = Returned q) as Hdiv.
  { intros d. case_bool_decide as Hd; [|eauto].
    destruct (truediv_positive (total_profit result) d Hd) as (q & -> & _).
    eauto. }
  destruct (Hdiv (total_hours result)) as [h ->]. simpl.
  destruct (Hdiv (sum_over (λ job, loaded_miles job + deadhead_miles job)
                    (chosen_jobs result))) as [pm ->].
  simpl. eauto.
Qed.

(** X13. The summary raises nothing, and never divides by zero.  Its total
    of miles is the running sum of loaded plus deadhead miles over the
    chosen jobs; the profit per hour is the total profit divided by the
    total hours when these are positive, and [0] otherwise; likewise the
    profit per mile with the total of miles. *)
Theorem summary_metrics_spec result :
  summary_metrics result
  = Returned
      (let total_miles :=
         foldl (λ total_miles job,
                  total_miles + (loaded_miles job + deadhead_miles job))
               0 (chosen_jobs result) in
       (total_miles,
        if bool_decide (0 < total_hours result)
        then total_profit result / total_hours result else 0,
        if bool_decide (0 < total_miles)
        then total_profit result / total_miles else 0)).
Proof.
  unfold summary_metrics. cbv zeta.
  set (miles := foldl _ 0 (chosen_jobs result)).
  assert (∀ d, (if bool_decide (0 < d)
                then truediv (total_profit result) d
                else Returned 0)
               = Returned (if bool_decide (0 < d)
                           then total_profit result / d else 0)) as Hdiv.
  { intros d. case_bool_decide as Hd; [|done].
    unfold truediv. rewrite bool_decide_eq_false_2; [done|].
    intros ->. by apply (Qclt_not_eq 0 0). }
  by rewrite !Hdiv.
Qed.

Lemma mapM_fmap_Returned {A B} (f : A → outcome B) (g : A → B) l :
  (∀ x, x ∈ l → f x = Returned (g x)) → mapM f l = Returned (g <$> l).
Proof.
  intros Hf. apply mapM_Returned.
  induction l as [|x l IH]; [constructor|].
  rewrite fmap_cons. constructor.
  - apply Hf. by constructor.
  - apply IH. intros; apply Hf. by constructor.
Qed.

Lemma job_row_Returned round2 result job :
  is_Some (all_profits result !! id job) →
  job_row round2 result job
    = Returned (job_cells round2 (all_profits result) job).
Proof.
  intros [p Hp]. unfold job_row, job_cells, getitem, entry.
  by rewrite Hp.
Qed.

Lemma job_row_Raised round2 result job e :
  job_row round2 result job = Raised e →
  all_profits result !! id job = None ∧ e = Base (KeyError (id job)).
Proof.
  unfold job_row, getitem.
  destruct (all_profits result !! id job); simpl; [done|].
  by intros [= <-].
Qed.

Lemma save_results_rows round2 result metrics :
  (∀ job, job ∈ chosen_jobs result →
          is_Some (all_profits result !! id job)) →
  summary_metrics result = Returned metrics →
  save_results_to_csv round2 result
    = Returned ([header_row]
                ++ (job_cells round2 (all_profits result)
                      <$> chosen_jobs result)
                ++ [ []; total_row round2 result; [];
                     summary_row round2 metrics ]).
Proof.
  intros Hall Hm. unfold save_results_to_csv. rewrite Hm. simpl.
  by rewrite (mapM_fmap_Returned _ (job_cells round2 (all_profits result)))
    by (intros job Hin; by apply job_row_Returned, Hall).
Qed.

Lemma length_saved_rows {A} (header : A) (rows tail : list A) :
  length tail = 4%nat →
  length ([header] ++ rows ++ tail) = (length rows + 5)%nat.
Proof. intros Htail. simpl. rewrite length_app, Htail. lia. Qed.

(** X14. For a result whose profit mapping has the id of every chosen job,
    [save_results_to_csv] writes the header, one row per chosen job in
    their order, each with the job's rounded entry of the mapping, a blank
    row, the totals, a blank row and the summary: five rows more than
    chosen jobs. *)
Theorem save_results_to_csv_returns round2 result :
  (∀ job, job ∈ chosen_jobs result →
          is_Some (all_profits result !! id job)) →
  ∃ rows metrics,
    save_results_to_csv round2 result = Returned rows
    ∧ summary_metrics result = Returned metrics
    ∧ rows = [header_row]
             ++ (job_cells round2 (all_profits result)
                   <$> chosen_jobs result)
             ++ [ []; total_row round2 result; [];
                  summary_row round2 metrics ]
    ∧ length rows = (length (chosen_jobs result) + 5)%nat.
Proof.
  intros Hall. destruct (summary_metrics_total result) as (h & pm & Hm).
  eexists _, _. split; [by apply save_results_rows|].
  split; [done|]. split; [done|].
  by rewrite length_saved_rows, length_fmap.
Qed.

Lemma save_results_to_csv_returns_witness :
  ∃ rows,
    save_results_to_csv (λ q, q)
      {| status := "Optimal"; total_profit := rat 541 1;
         total_hours := rat 3 1; total_pallets := rat 2 1;
         chosen_jobs := one_job;
         all_profits := compute_profits one_job demo_cfg |}
      = Returned rows
    ∧ length rows = 6%nat.
Proof.
  destruct (save_results_to_csv_returns (λ q, q)
      {| status := "Optimal"; total_profit := rat 541 1;
         total_hours := rat 3 1; total_pallets := rat 2 1;
         chosen_jobs := one_job;
         all_profits := compute_profits one_job demo_cfg |})
    as (rows & metrics & Hrows & _ & _ & Hlen).
  - apply Forall_forall. compute_done.
  - exists rows. split; [exact Hrows|exact Hlen].
Defined.

(** X15. The only exception [save_results_to_csv] raises is [KeyError], for
    the id of the first chosen job that the profit mapping lacks. *)
Theorem save_results_to_csv_raises round2 result e :
  save_results_to_csv round2 result = Raised e →
  ∃ l1 job l2,
    chosen_jobs result = l1 ++ job :: l2
    ∧ (∀ j, j ∈ l1 → is_Some (all_profits result !! id j))
    ∧ all_profits result !! id job = None
    ∧ e = Base (KeyError (id job)).
Proof.
  unfold save_results_to_csv.
  destruct (summary_metrics_total result) as (h & pm & Hm).
  rewrite Hm. simpl.
  destruct (mapM (job_row round2 result) (chosen_jobs result))
    as [rows|e'] eqn:Hrows; [done|]. simpl. intros [= <-].
  apply mapM_Raised in Hrows as (l1 & job & l2 & Hch & Hl1 & Hjob).
  apply job_row_Raised in Hjob as [Hnone ->].
  exists l1, job, l2. split; [done|]. split; [|done].
  intros j Hj. rewrite Forall_forall in Hl1. destruct (Hl1 j Hj) as [y Hy].
  destruct (all_profits result !! id j) eqn:Hp; [eauto|].
  unfold job_row, getitem in Hy. by rewrite Hp in Hy.
Qed.

Lemma save_results_to_csv_raises_witness :
  ∃ l1 job l2,
    one_job = l1 ++ job :: l2
    ∧ (∅ : gmap string Qc) !! id job = None.
Proof.
  assert (save_results_to_csv (λ q, q)
      {| status := "Optimal"; total_profit := rat 541 1;
         total_hours := rat 3 1; total_pallets := rat 2 1;
         chosen_jobs := one_job; all_profits := ∅ |}
      = Raised (Base (KeyError "1"))) as Hsave by (vm_compute; reflexivity).
  destruct (save_results_to_csv_raises _ _ _ Hsave)
    as (l1 & job & l2 & Hch & _ & Hnone & _).
  exists l1, job, l2. split; [exact Hch|exact Hnone].
Defined.

(** ** The script as a whole *)

Lemma chosen_jobs_have_profits solve jobs cfg md mt mp r job :
  optimize_jobs solve jobs cfg md mt mp = Ok r →
  job ∈ chosen_jobs r → is_Some (all_profits r !! id job).
Proof.
  intros (a & Hch & -> & _)%optimize_jobs_Ok_inv Hin.
  apply profits_elem. rewrite Hch in Hin.
  eapply elem_of_sublist in Hin; [|apply selection_sublist].
  by eapply eligible_elem.
Qed.

(** X16. Whatever [optimize_jobs] returns, [save_results_to_csv] accepts:
    every chosen job finds its profit, the rows written are five more than
    the chosen jobs, and the hours, pallets and profit of the TOTAL row are
    the sums, over the chosen jobs, of the hours, the pallets and the
    (unrounded) profits shown in their rows. *)
Theorem save_after_optimize round2 solve jobs cfg md mt mp r :
  optimize_jobs solve jobs cfg md mt mp = Ok r →
  ∃ rows, save_results_to_csv round2 r = Returned rows
          ∧ length rows = (length (chosen_jobs r) + 5)%nat
          ∧ (∀ i job, chosen_jobs r !! i = Some job →
               rows !! S i = Some (job_cells round2 (all_profits r) job))
          ∧ total_row round2 r
            = [ Text "TOTAL"; Text ""; Text ""; Text "";
                Number (sum_over hours (chosen_jobs r));
                Number (sum_over pallets (chosen_jobs r));
                Text ""; Text ""; Text ""; Text "";
                Number (round2 (sum_over (entry (all_profits r))
                                  (chosen_jobs r))) ].
Proof.
  intros Hr. destruct (summary_metrics_total r) as (h & pm & Hm).
  eexists. split; [|split; [|split]].
  - apply save_results_rows; [|done].
    intros job. by eapply chosen_jobs_have_profits.
  - by rewrite length_saved_rows, length_fmap.
  - intros i job Hi. simpl.
    rewrite lookup_app_l by (rewrite length_fmap; by eapply lookup_lt_Some).
    by rewrite list_lookup_fmap, Hi.
  - apply optimize_jobs_Ok_inv in Hr as (a & _ & Hall & Htot & Hh & Hp).
    unfold total_row. by rewrite Htot, Hh, Hp, Hall.
Qed.

Lemma save_after_optimize_witness :
  ∃ r rows,
    optimize_jobs enumerate_solve demo_jobs demo_cfg None None None = Ok r
    ∧ save_results_to_csv (λ q, q) r = Returned rows
    ∧ length rows = (length (chosen_jobs r) + 5)%nat.
Proof.
  destruct (proj2 (optimize_jobs_Ok_iff enumerate_solve demo_jobs demo_cfg
                     None None None)) as [r Hr].
  { right. compute_done. }
  destruct (save_after_optimize (λ q, q) enumerate_solve demo_jobs demo_cfg
              None None None r Hr) as (rows & Hrows & Hlen & _).
  exists r, rows. split; [exact Hr|]. split; [exact Hrows|exact Hlen].
Defined.
